(** * pl.Modal — a shallow embedding of [src/scripts/ts/PLModal.ts]

    The development follows the source file: JavaScript values and objects,
    the two static helpers ([transitionSelect], [extendsDefaults]), the
    class-name strings that [open] and [close] edit, a small DOM store, and
    the methods of [pl.Modal] written in a state-and-exception monad over
    the page.  The page's event loop ([step], [run]) feeds the instance with
    calls, completion signals, key presses, clicks and the passing of time.
    The second half proves what the specification says about the widget. *)

From Stdlib Require Import Ascii String.
From stdpp Require Import base option list strings gmap fin_maps.

Local Open Scope string_scope.
Local Open Scope list_scope.
Local Open Scope nat_scope.

(** ** JavaScript values *)

(** The values a settings property can hold in this model: [undefined],
    [null], booleans and strings.  A string is a sequence of code units; each
    [ascii] stands for one code unit below 256. *)
Inductive jsval : Type :=
  | VUndefined
  | VNull
  | VBool (b : bool)
  | VStr (s : string).

#[global] Instance jsval_eq_dec : EqDecision jsval.
Proof. solve_decision. Defined.

(** [ToBoolean]: the truthiness used by [if (x)], [!x] and [x || y]. *)
Definition ToBoolean (v : jsval) : bool :=
  match v with
  | VUndefined | VNull => false
  | VBool b => b
  | VStr s => negb (String.eqb s "")
  end.

(** [ToString]: the conversion applied by string concatenation with [+]. *)
Definition ToString (v : jsval) : string :=
  match v with
  | VUndefined => "undefined"
  | VNull => "null"
  | VBool true => "true"
  | VBool false => "false"
  | VStr s => s
  end.

(** ** Objects used as property bags *)

(** An object is the finite map of its own enumerable data properties
    together with the enumerable properties it inherits through its prototype
    chain.  Accessor properties and non-enumerable properties are outside the
    model. *)
Record jsobject : Type := JsObject {
  own : gmap string jsval;
  inherited : gmap string jsval
}.

(** The object literal [{}]. *)
Definition empty_object : jsobject := JsObject ∅ ∅.

(** [o.hasOwnProperty(k)] *)
Definition hasOwnProperty (o : jsobject) (k : string) : bool :=
  bool_decide (is_Some (own o !! k)).

(** [o[k]]: own property first, then the prototype chain, else [undefined]. *)
Definition get_prop (o : jsobject) (k : string) : jsval :=
  match own o !! k with
  | Some v => v
  | None => default VUndefined (inherited o !! k)
  end.

(** [o[k] = v] creates or overwrites an own property. *)
Definition set_prop (o : jsobject) (k : string) (v : jsval) : jsobject :=
  JsObject (<[k := v]> (own o)) (inherited o).

(** The keys visited by [for (k in o)]: the own enumerable keys, then the
    inherited enumerable keys that no own property shadows. *)
Definition for_in_keys (o : jsobject) : list string :=
  (map_to_list (own o)).*1 ++
  filter (λ k, own o !! k = None) (map_to_list (inherited o)).*1.

(** ** Static helpers *)

(** The object literal [transEndEventNames], in insertion order (the order in
    which [for ... in] visits its keys). *)
Definition transEndEventNames : list (string * string) :=
  [ ("WebkitTransition", "webkitTransitionEnd");
    ("MozTransition",    "transitionend");
    ("OTransition",      "otransitionend");
    ("transition",       "transitionend") ].

(** [transEndEventNames[name]] *)
Fixpoint event_name_of (tbl : list (string * string)) (name : string) : jsval :=
  match tbl with
  | [] => VUndefined
  | (k, ev) :: tbl' => if String.eqb k name then VStr ev else event_name_of tbl' name
  end.

(** The body of the [for (let name in transEndEventNames)] loop.  [style]
    stands for [el.style] of the throwaway [div]: [style name] is the value of
    [el.style[name]].  Falling off the end of the loop returns [undefined]. *)
Fixpoint transitionSelect_loop (style : string → jsval) (names : list string) : jsval :=
  match names with
  | [] => VUndefined
  | name :: rest =>
      if bool_decide (style name ≠ VUndefined)
      then event_name_of transEndEventNames name
      else transitionSelect_loop style rest
  end.

(** [static transitionSelect(): string] *)
Definition transitionSelect (style : string → jsval) : jsval :=
  transitionSelect_loop style (transEndEventNames.*1).

(** [static extendsDefaults(source, settings)]: the [for ... in] loop, whose
    body is [copy_property], with its [hasOwnProperty] filter.  The source
    mutates [source] in place and returns it; its only caller passes a fresh
    literal and keeps nothing but the returned reference, so the updated
    object is returned as a value. *)
Definition copy_property (settings source : jsobject) (property : string) : jsobject :=
  if hasOwnProperty settings property
  then set_prop source property (get_prop settings property)
  else source.

Definition extendsDefaults (source settings : jsobject) : jsobject :=
  foldl (copy_property settings) source (for_in_keys settings).

(** ** Class-name strings *)

(** The characters matched by [\s] in a regular expression, among code units
    below 256: TAB, LF, VT, FF, CR, space and the no-break space. *)
Definition is_regex_space (a : ascii) : bool :=
  let n := nat_of_ascii a in
  (Nat.leb 9 n && Nat.leb n 13) || Nat.eqb n 32 || Nat.eqb n 160.

(** [strip_prefix p s] is [Some r] when [s = p ++ r]. *)
Fixpoint strip_prefix (p s : string) : option string :=
  match p with
  | EmptyString => Some s
  | String a p' =>
      match s with
      | EmptyString => None
      | String b s' => if Ascii.eqb a b then strip_prefix p' s' else None
      end
  end.

(** The literal part of the pattern in [close]. *)
Definition modal_open : string := "modal-open".

(** [\s+] followed by the literal, matched at the start of [s], with the
    greedy quantifier's backtracking: take one more white-space character if
    the rest can still match, else stop here and match the literal.  The
    result is the text after the match. *)
Fixpoint spaces_then_literal (s : string) : option string :=
  match s with
  | EmptyString => None
  | String a s' =>
      if is_regex_space a then
        match spaces_then_literal s' with
        | Some r => Some r
        | None => strip_prefix modal_open s'
        end
      else None
  end.

(** [/(\s+)?modal-open/] matched at the start of [s]: the optional group is
    tried first, then skipped. *)
Definition match_at_start (s : string) : option string :=
  match spaces_then_literal s with
  | Some r => Some r
  | None => strip_prefix modal_open s
  end.

(** [s.replace(/(\s+)?modal-open/, '')]: the leftmost match is deleted, the
    rest of the string is kept; without a match the string is unchanged. *)
Fixpoint replace_modal_open (s : string) : string :=
  match match_at_start s with
  | Some r => r
  | None =>
      match s with
      | EmptyString => EmptyString
      | String a s' => String a (replace_modal_open s')
      end
  end.





(** [occurs p s]: [p] is a substring of [s]. *)
Fixpoint occurs (p s : string) : bool :=
  match strip_prefix p s with
  | Some _ => true
  | None =>
      match s with
      | EmptyString => false
      | String _ s' => occurs p s'
      end
  end.

(** ** The DOM store *)

(** A node is identified by its index in the store; creating a node appends
    a cell, so a new node never aliases an old one.  [className] is
    meaningful for elements only. *)
Inductive node_kind : Type :=
  | Element
  | TextNode (data : string).

Record node : Type := Node {
  kind : node_kind;
  className : string;
  parentNode : option nat;
  childNodes : list nat
}.

Definition with_className (c : string) (n : node) : node :=
  Node (kind n) c (parentNode n) (childNodes n).
Definition with_parentNode (p : option nat) (n : node) : node :=
  Node (kind n) (className n) p (childNodes n).
Definition with_childNodes (f : list nat → list nat) (n : node) : node :=
  Node (kind n) (className n) (parentNode n) (f (childNodes n)).

Definition parent_of (ns : list node) (n : nat) : option nat :=
  ns !! n ≫= parentNode.
Definition class_of (ns : list node) (n : nat) : string :=
  default "" (className <$> ns !! n).
Definition children_of (ns : list node) (n : nat) : list nat :=
  default [] (childNodes <$> ns !! n).

(** Is [a] the node [n] or one of its ancestors?  The walk up the parent
    chain is bounded by [fuel]; the number of nodes suffices in a store
    without parent cycles. *)
Fixpoint inclusive_ancestor (fuel : nat) (ns : list node) (a n : nat) : bool :=
  Nat.eqb n a ||
  match fuel with
  | O => false
  | S fuel' =>
      match parent_of ns n with
      | Some p => inclusive_ancestor fuel' ns a p
      | None => false
      end
  end.

(** Take [c] out of the child list of its parent, if it has one. *)
Definition detach (c : nat) (ns : list node) : list node :=
  match parent_of ns c with
  | Some p =>
      alter (with_parentNode None) c
        (alter (with_childNodes (filter (λ x, x ≠ c))) p ns)
  | None => ns
  end.

(** Insert [c] as the last child of [p], after taking it out of its old
    parent. *)
Definition attach_last (p c : nat) (ns : list node) : list node :=
  alter (with_childNodes (λ l, l ++ [c])) p
    (alter (with_parentNode (Some p)) c (detach c ns)).

(** ** Notification channels *)

(** Modelled from the spec: the class [PLEvent] is not part of the source
    file.  The spec describes a notification channel as an object supporting
    listener registration and broadcast-style firing with no payload: a
    channel is the list of its registered listeners, and firing it notifies
    each of them once, in registration order.  A listener is known by a
    number only; it is taken to return normally and not to call back into
    the modal. *)
Record PLEvent : Type := MkPLEvent { listeners : list nat }.

Definition PLEvent_new : PLEvent := MkPLEvent [].
Definition PLEvent_handle (h : nat) (c : PLEvent) : PLEvent :=
  MkPLEvent (listeners c ++ [h]).
Definition PLEvent_fire (c : PLEvent) : list nat := listeners c.

(** ** The instance and its surroundings *)

(** The fields of a [pl.Modal] instance.  [_modalClose] and [_modalOpen] are
    [None] while the field is still [undefined]. *)
Record Modal : Type := MkModal {
  _overlay : nat;
  _modal : nat;
  _content : nat;
  _closeButton : option nat;
  _isOpen : bool;
  _modalClose : option nat;
  _modalOpen : option nat;
  _settings : jsobject;
  _transitionend : jsval
}.

(** What one handler invocation put into the page's record of notifications:
    the channel fired and the listeners it notified. *)
Definition firing : Type := (nat * list nat)%type.

(** The page as far as the modal touches it: the DOM store and
    [document.body], the listeners the modal has registered, the pending
    [setTimeout] callbacks (all of them re-attach the completion listener,
    so a timer is its due time), a millisecond clock, the channel objects,
    the record of firings, and the instance itself. *)
Record world : Type := World {
  nodes : list node;
  body : nat;
  keydown_listener : bool;
  click_listener : bool;
  modal_listeners : gset string;
  timers : list nat;
  now : nat;
  channels : list PLEvent;
  fired : list firing;
  this : Modal
}.

Definition set_nodes (f : list node → list node) (w : world) : world :=
  World (f (nodes w)) (body w) (keydown_listener w) (click_listener w)
        (modal_listeners w) (timers w) (now w) (channels w) (fired w) (this w).
Definition set_keydown_listener (b : bool) (w : world) : world :=
  World (nodes w) (body w) b (click_listener w)
        (modal_listeners w) (timers w) (now w) (channels w) (fired w) (this w).
Definition set_click_listener (b : bool) (w : world) : world :=
  World (nodes w) (body w) (keydown_listener w) b
        (modal_listeners w) (timers w) (now w) (channels w) (fired w) (this w).
Definition set_modal_listeners (f : gset string → gset string) (w : world) : world :=
  World (nodes w) (body w) (keydown_listener w) (click_listener w)
        (f (modal_listeners w)) (timers w) (now w) (channels w) (fired w) (this w).
Definition set_timers (f : list nat → list nat) (w : world) : world :=
  World (nodes w) (body w) (keydown_listener w) (click_listener w)
        (modal_listeners w) (f (timers w)) (now w) (channels w) (fired w) (this w).
Definition set_now (t : nat) (w : world) : world :=
  World (nodes w) (body w) (keydown_listener w) (click_listener w)
        (modal_listeners w) (timers w) t (channels w) (fired w) (this w).
Definition set_channels (f : list PLEvent → list PLEvent) (w : world) : world :=
  World (nodes w) (body w) (keydown_listener w) (click_listener w)
        (modal_listeners w) (timers w) (now w) (f (channels w)) (fired w) (this w).
Definition set_fired (f : list firing → list firing) (w : world) : world :=
  World (nodes w) (body w) (keydown_listener w) (click_listener w)
        (modal_listeners w) (timers w) (now w) (channels w) (f (fired w)) (this w).
Definition set_this (f : Modal → Modal) (w : world) : world :=
  World (nodes w) (body w) (keydown_listener w) (click_listener w)
        (modal_listeners w) (timers w) (now w) (channels w) (fired w) (f (this w)).

Definition with_nodes_fields (o m c : nat) (b : option nat) (t : Modal) : Modal :=
  MkModal o m c b (_isOpen t) (_modalClose t) (_modalOpen t)
          (_settings t) (_transitionend t).
Definition with_isOpen (b : bool) (t : Modal) : Modal :=
  MkModal (_overlay t) (_modal t) (_content t) (_closeButton t) b
          (_modalClose t) (_modalOpen t) (_settings t) (_transitionend t).
Definition with_modalClose (c : option nat) (t : Modal) : Modal :=
  MkModal (_overlay t) (_modal t) (_content t) (_closeButton t) (_isOpen t)
          c (_modalOpen t) (_settings t) (_transitionend t).
Definition with_modalOpen (c : option nat) (t : Modal) : Modal :=
  MkModal (_overlay t) (_modal t) (_content t) (_closeButton t) (_isOpen t)
          (_modalClose t) c (_settings t) (_transitionend t).

(** ** A state-and-exception monad *)

Inductive exn : Type :=
  | TypeError
  | HierarchyRequestError.

Inductive result (A : Type) : Type :=
  | Ok (a : A)
  | Throw (e : exn).
Arguments Ok {A} a.
Arguments Throw {A} e.

#[global] Instance exn_eq_dec : EqDecision exn.
Proof. solve_decision. Defined.
#[global] Instance result_eq_dec {A} `{EqDecision A} : EqDecision (result A).
Proof. solve_decision. Defined.

(** A computation runs on the page; what it changed before throwing stays
    changed. *)
Definition M (A : Type) : Type := world → result A * world.

Definition ret {A} (a : A) : M A := λ w, (Ok a, w).
Definition bind {A B} (m : M A) (k : A → M B) : M B :=
  λ w, match m w with
       | (Ok a, w') => k a w'
       | (Throw e, w') => (Throw e, w')
       end.
Definition throw {A} (e : exn) : M A := λ w, (Throw e, w).
Definition gets {A} (f : world → A) : M A := λ w, (Ok (f w), w).
Definition modify (f : world → world) : M unit := λ w, (Ok tt, f w).

Declare Scope js_scope.
Delimit Scope js_scope with js.
Notation "'let*' x := m 'in' k" := (bind m (λ x, k))
  (at level 10, x name, m at level 100, k at level 200) : js_scope.
Notation "m ;;; k" := (bind m (λ _, k))
  (at level 100, k at level 200, right associativity) : js_scope.
Local Open Scope js_scope.

(** ** DOM operations *)

(** [document.createElement('div')] *)
Definition createElement : M nat :=
  λ w, (Ok (length (nodes w)), set_nodes (λ ns, ns ++ [Node Element "" None []]) w).

(** [document.createTextNode(data)] *)
Definition createTextNode (data : string) : M nat :=
  λ w, (Ok (length (nodes w)), set_nodes (λ ns, ns ++ [Node (TextNode data) "" None []]) w).

(** [n.className] and [n.className = c] *)
Definition get_className (n : nat) : M string := gets (λ w, class_of (nodes w) n).
Definition set_className (n : nat) (c : string) : M unit :=
  modify (set_nodes (alter (with_className c) n)).

(** [p.appendChild(c)] for an element [p]: a node cannot be put below itself
    or below one of its descendants; otherwise it moves to the end of [p]'s
    children. *)
Definition appendChild (p c : nat) : M unit :=
  λ w, if inclusive_ancestor (length (nodes w)) (nodes w) c p
       then (Throw HierarchyRequestError, w)
       else (Ok tt, set_nodes (attach_last p c) w).

(** [n.parentNode.removeChild(n)]: reading [removeChild] off a [null] parent
    is a [TypeError]; otherwise [n] is a child of the receiver and is taken
    out. *)
Definition parentNode_removeChild (n : nat) : M unit :=
  λ w, match parent_of (nodes w) n with
       | None => (Throw TypeError, w)
       | Some _ => (Ok tt, set_nodes (detach n) w)
       end.

(** [n.innerHTML = '']: every child of [n] is removed. *)
Definition clear_innerHTML (n : nat) : M unit :=
  modify (set_nodes (λ ns,
    alter (with_childNodes (λ _, []))
      n (foldr (λ c, alter (with_parentNode None) c) ns (children_of ns n)))).

(** [new PLEvent()] *)
Definition new_PLEvent : M nat :=
  λ w, (Ok (length (channels w)), set_channels (λ cs, cs ++ [PLEvent_new]) w).

(** [c.fire()] *)
Definition fire (c : nat) : M unit :=
  modify (λ w, set_fired
    (λ l, l ++ [(c, PLEvent_fire (default PLEvent_new (channels w !! c)))]) w).

(** [modal.addEventListener(type, this.toggleTransitionend, false)] and the
    matching [removeEventListener].  The bound handler is one function object,
    so the listeners of the dialog element form a set of event types; a
    non-string [type] is converted to a string. *)
Definition addEventListener_modal (type : jsval) : M unit :=
  modify (set_modal_listeners (λ l, {[ ToString type ]} ∪ l)).
Definition removeEventListener_modal (type : jsval) : M unit :=
  modify (set_modal_listeners (λ l, l ∖ {[ ToString type ]})).

(** [setTimeout(() => modal.addEventListener(...), delay)] *)
Definition setTimeout_rearm (delay : nat) : M unit :=
  modify (λ w, set_timers (λ l, l ++ [now w + delay]) w).

(** ** The methods of [pl.Modal] *)

(** [private buildOut()] *)
Definition buildOut : M unit :=
  let* overlay := createElement in
  set_className overlay "pl-modal-overlay" ;;;
  let* modal := createElement in
  let* settings := gets (λ w, _settings (this w)) in
  set_className modal ("pl-modal" +:+ " " +:+ ToString (get_prop settings "className")) ;;;
  let* content := createElement in
  set_className content "pl-modal-content" ;;;
  appendChild modal content ;;;
  let* closeButton :=
    (if ToBoolean (get_prop settings "avoidClose") then
       let* b := createElement in
       set_className b "pl-modal-close-button" ;;;
       appendChild modal b ;;;
       ret (Some b)
     else ret None) in
  modify (set_this (with_nodes_fields overlay modal content closeButton)).

(** [private initializeEvents()] *)
Definition initializeEvents : M unit :=
  let* settings := gets (λ w, _settings (this w)) in
  (if ToBoolean (get_prop settings "avoidClose") then
     modify (set_keydown_listener true) ;;;
     let* closeButton := gets (λ w, _closeButton (this w)) in
     match closeButton with
     | Some _ => modify (set_click_listener true)
     | None => throw TypeError
     end
   else ret tt) ;;;
  let* transitionend := gets (λ w, _transitionend (this w)) in
  addEventListener_modal transitionend.

(** [private onModalOpen()] *)
Definition onModalOpen : M unit :=
  let* modalOpen := gets (λ w, _modalOpen (this w)) in
  match modalOpen with
  | Some c => fire c
  | None => ret tt
  end ;;;
  modify (set_this (with_isOpen true)).

(** [private removeFromDom()] *)
Definition removeFromDom : M unit :=
  let* overlay := gets (λ w, _overlay (this w)) in
  let* modal := gets (λ w, _modal (this w)) in
  parentNode_removeChild overlay ;;;
  parentNode_removeChild modal.

(** [private onModalClose()] *)
Definition onModalClose : M unit :=
  let* modalClose := gets (λ w, _modalClose (this w)) in
  match modalClose with
  | Some c => fire c
  | None => ret tt
  end ;;;
  removeFromDom ;;;
  modify (set_this (with_isOpen false)).

(** [private toggleTransitionend(ev)] *)
Definition toggleTransitionend : M unit :=
  let* isOpen := gets (λ w, _isOpen (this w)) in
  let functionToCall := if isOpen : bool then onModalClose else onModalOpen in
  let* transitionend := gets (λ w, _transitionend (this w)) in
  removeEventListener_modal transitionend ;;;
  functionToCall ;;;
  setTimeout_rearm 50.

(** [public close()] *)
Definition close : M unit :=
  let* isOpen := gets (λ w, _isOpen (this w)) in
  if negb isOpen then ret tt else
  let* overlay := gets (λ w, _overlay (this w)) in
  let* modal := gets (λ w, _modal (this w)) in
  let* c := get_className overlay in
  set_className overlay (replace_modal_open c) ;;;
  let* c := get_className modal in
  set_className modal (replace_modal_open c).

(** [public get modalClose()] *)
Definition modalClose : M nat :=
  let* c := gets (λ w, _modalClose (this w)) in
  match c with
  | None =>
      let* e := new_PLEvent in
      modify (set_this (with_modalClose (Some e))) ;;;
      ret e
  | Some e => ret e
  end.

(** [public get modalOpen()] *)
Definition modalOpen : M nat :=
  let* c := gets (λ w, _modalOpen (this w)) in
  match c with
  | None =>
      let* e := new_PLEvent in
      modify (set_this (with_modalOpen (Some e))) ;;;
      ret e
  | Some e => ret e
  end.

(** [public open()].  The two [getComputedStyle] reads change nothing. *)
Definition open : M unit :=
  let* isOpen := gets (λ w, _isOpen (this w)) in
  if isOpen : bool then ret tt else
  let* body := gets body in
  let* overlay := gets (λ w, _overlay (this w)) in
  let* modal := gets (λ w, _modal (this w)) in
  appendChild body overlay ;;;
  appendChild body modal ;;;
  let* c := get_className overlay in
  set_className overlay (c +:+ " modal-open") ;;;
  let* c := get_className modal in
  set_className modal (c +:+ " modal-open").

(** What a caller can pass to [setContent]: nothing (the default [""]
    applies), a string, a node of the page, or any other value. *)
Inductive content_arg : Type :=
  | CNothing
  | CString (s : string)
  | CNode (n : nat)
  | COther.

(** [public setContent(content: any = "")].  [appendChild] of something that
    is not a node is a [TypeError]. *)
Definition setContent (content : content_arg) : M unit :=
  let* slot := gets (λ w, _content (this w)) in
  clear_innerHTML slot ;;;
  match content with
  | CNothing =>
      let* t := createTextNode "" in appendChild slot t
  | CString s =>
      let* t := createTextNode s in appendChild slot t
  | CNode n =>
      let* known := gets (λ w, bool_decide (n < length (nodes w))) in
      if known : bool then appendChild slot n else throw TypeError
  | COther => throw TypeError
  end.

(** [constructor(settings)].  The argument is [undefined], [null] or an
    object; [style] is the style declaration of the probing [div]; [page] is
    the document the script runs in. *)
Inductive settings_arg : Type :=
  | ArgUndefined
  | ArgNull
  | ArgObject (o : jsobject).

(** [settings || {}] *)
Definition settings_or_empty (a : settings_arg) : jsobject :=
  match a with
  | ArgUndefined | ArgNull => empty_object
  | ArgObject o => o
  end.

(** The literal [defaults] of the constructor. *)
Definition defaults : jsobject :=
  JsObject {[ "className" := VStr ""; "avoidClose" := VBool true ]} ∅.

Record page : Type := Page { page_nodes : list node; page_body : nat }.

(** The instance before the constructor body runs: [_isOpen] is initialised
    to [false], every other field is still unset (the element fields are
    assigned by [buildOut] before anything reads them). *)
Definition fresh_instance (settings : jsobject) (transitionend : jsval) : Modal :=
  MkModal 0 0 0 None false None None settings transitionend.

Definition new_Modal (style : string → jsval) (settings : settings_arg) (pg : page) : world :=
  let settings := extendsDefaults defaults (settings_or_empty settings) in
  let transitionend := transitionSelect style in
  let w0 := World (page_nodes pg) (page_body pg) false false ∅ [] 0 [] []
                  (fresh_instance settings transitionend) in
  snd ((buildOut ;;; initializeEvents) w0).

(** ** The page's event loop *)

(** What can happen to a page holding a modal: calls of the public
    operations, reads of the two accessors, a listener registering on a
    channel, an event of some type reaching the dialog element, a key press
    on the document, a click on the close button, and time passing. *)
Inductive event : Type :=
  | CallOpen
  | CallClose
  | CallSetContent (c : content_arg)
  | ReadModalOpen
  | ReadModalClose
  | Handle (channel listener : nat)
  | Dispatch (type : string)
  | KeyDown (keyCode : nat)
  | ClickCloseButton
  | Elapse (ms : nat).

Definition ESC_KEY : nat := 27.

(** The arrow function registered for [keydown] on the document. *)
Definition on_keydown (keyCode : nat) : M unit :=
  if Nat.eqb keyCode ESC_KEY then close else ret tt.

(** Run the timers that are due: each re-attaches the completion listener. *)
Definition run_due_timers : M unit :=
  let* t := gets now in
  let* pending := gets timers in
  modify (set_timers (filter (λ due, t < due))) ;;;
  let* transitionend := gets (λ w, _transitionend (this w)) in
  foldr (λ _ rest, addEventListener_modal transitionend ;;; rest) (ret tt)
        (filter (λ due, due ≤ t) pending).

Definition step (e : event) : M unit :=
  match e with
  | CallOpen => open
  | CallClose => close
  | CallSetContent c => setContent c
  | ReadModalOpen => modalOpen ;;; ret tt
  | ReadModalClose => modalClose ;;; ret tt
  | Handle c h => modify (set_channels (alter (PLEvent_handle h) c))
  | Dispatch type =>
      let* ls := gets modal_listeners in
      if bool_decide (type ∈ ls) then toggleTransitionend else ret tt
  | KeyDown k =>
      let* registered := gets keydown_listener in
      if registered : bool then on_keydown k else ret tt
  | ClickCloseButton =>
      let* registered := gets click_listener in
      if registered : bool then close else ret tt
  | Elapse ms =>
      let* t := gets now in
      modify (set_now (t + ms)) ;;;
      run_due_timers
  end.

(** A run of the event loop.  An exception ends the handler or call that
    raised it; the page goes on with the next event. *)
Definition run (es : list event) (w : world) : world :=
  foldl (λ w e, snd (step e w)) w es.

(** ** Observations *)

Definition isOpen (w : world) : bool := _isOpen (this w).
Definition overlay_class (w : world) : string := class_of (nodes w) (_overlay (this w)).
Definition dialog_class (w : world) : string := class_of (nodes w) (_modal (this w)).
Definition overlay_parent (w : world) : option nat := parent_of (nodes w) (_overlay (this w)).
Definition dialog_parent (w : world) : option nat := parent_of (nodes w) (_modal (this w)).

(** How often channel [c] has fired. *)
Definition fire_count (c : nat) (w : world) : nat :=
  length (filter (λ f, f.1 = c) (fired w)).

(** A sample page: a document whose body is empty. *)
Definition blank_page : page := Page [Node Element "" None []] 0.

(** A browser that knows only the unprefixed [transition] property. *)
Definition standard_style (name : string) : jsval :=
  if String.eqb name "transition" then VStr "" else VUndefined.

(** ** Invariants *)

(** Every parent pointer of the store points at an existing node. *)
Definition store_closed (ns : list node) : Prop :=
  ∀ n p, parent_of ns n = Some p → p < length ns.

(** The overlay, the dialog and [document.body] are three existing nodes,
    and [document.body] is the root of the page. *)
Record frame_ok (w : world) : Prop := FrameOk {
  ok_body : body w < length (nodes w);
  ok_overlay : _overlay (this w) < length (nodes w);
  ok_modal : _modal (this w) < length (nodes w);
  ok_overlay_modal : _overlay (this w) ≠ _modal (this w);
  ok_overlay_body : _overlay (this w) ≠ body w;
  ok_modal_body : _modal (this w) ≠ body w;
  ok_body_root : parent_of (nodes w) (body w) = None
}.

(** The content slot is an existing node of a closed store. *)
Definition slot_ok (w : world) : Prop :=
  _content (this w) < length (nodes w) ∧ store_closed (nodes w).

(** The completion listener is either attached with no re-arm pending, or
    detached. *)
Definition armed (w : world) : Prop :=
  modal_listeners w = {[ ToString (_transitionend (this w)) ]} ∧ timers w = [].

(** The completion listener is attached with no re-arm pending, or it is
    detached with at most one re-arm pending. *)
Definition armed_or_waiting (w : world) : Prop :=
  armed w ∨ (modal_listeners w = ∅ ∧ length (timers w) ≤ 1).

(** Every element the page or the instance names exists, in a closed store. *)
Record closed_page (w : world) : Prop := ClosedPage {
  cp_closed : store_closed (nodes w);
  cp_body : body w < length (nodes w);
  cp_overlay : _overlay (this w) < length (nodes w);
  cp_modal : _modal (this w) < length (nodes w);
  cp_content : _content (this w) < length (nodes w)
}.

(** A page a modal can be constructed in. *)
Definition page_ok (pg : page) : Prop :=
  page_body pg < length (page_nodes pg) ∧
  store_closed (page_nodes pg) ∧
  parent_of (page_nodes pg) (page_body pg) = None.

(** The events of the open/close handshake driven by the program and by the
    style engine: calls of [open] and [close], reads of the accessors,
    listeners registering, events reaching the dialog, and time passing. *)
Definition handshake_event (e : event) : bool :=
  match e with
  | CallSetContent _ | KeyDown _ | ClickCloseButton => false
  | _ => true
  end.

(** Completion signals and waiting. *)
Definition signal_or_wait (e : event) : bool :=
  match e with
  | Dispatch _ | Elapse _ => true
  | _ => false
  end.

(** The time a run of events takes. *)
Definition elapsed (es : list event) : nat :=
  foldr (λ e t, match e with Elapse ms => ms + t | _ => t end) 0 es.

(** The part of the page the handshake reads and writes. *)
Record handshake : Type := Handshake {
  h_isOpen : bool;
  h_overlay_class : string;
  h_dialog_class : string;
  h_overlay_parent : option nat;
  h_dialog_parent : option nat;
  h_body : nat;
  h_listeners : gset string;
  h_timers : list nat;
  h_now : nat;
  h_channels : list PLEvent;
  h_fired : list firing;
  h_modalOpen : option nat;
  h_modalClose : option nat;
  h_transitionend : jsval
}.

Definition handshake_of (w : world) : handshake :=
  Handshake (isOpen w) (overlay_class w) (dialog_class w)
            (overlay_parent w) (dialog_parent w) (body w)
            (modal_listeners w) (timers w) (now w) (channels w) (fired w)
            (_modalOpen (this w)) (_modalClose (this w))
            (_transitionend (this w)).

(** What firing the channel held in an accessor field adds to the record of
    notifications: nothing while the field is still unset. *)
Definition notification (c : option nat) (w : world) : list firing :=
  match c with
  | Some c => [(c, PLEvent_fire (default PLEvent_new (channels w !! c)))]
  | None => []
  end.

(** A modal constructed without settings on the sample page. *)
Definition sample_modal : world := new_Modal standard_style ArgUndefined blank_page.

(** The content slot holds exactly one child, a text node with data [s]. *)
Definition slot_is_text (s : string) (w : world) : Prop :=
  ∃ t, children_of (nodes w) (_content (this w)) = [t] ∧
       nodes w !! t = Some (Node (TextNode s) "" (Some (_content (this w))) []).

(** The listeners of the dialog after the due timers [due] have run. *)
Definition rearm (transitionend : jsval) (due : list nat) (l : gset string) : gset string :=
  foldr (λ _ s, {[ ToString transitionend ]} ∪ s) l due.

(** The channel a completion signal fires in state [w], if it exists. *)
Definition channel_due (w : world) : option nat :=
  if isOpen w then _modalClose (this w) else _modalOpen (this w).


(** ** The handshake as a machine of its own *)

(** The handshake part of the page evolves by itself: what an event of the
    handshake does to it depends on nothing else on the page.  [hstep] spells
    this machine out; it is compared with [step] below. *)

Definition h_set_isOpen (v0 : bool) (h : handshake) : handshake :=
  Handshake v0 (h_overlay_class h) (h_dialog_class h) (h_overlay_parent h)
           (h_dialog_parent h) (h_body h) (h_listeners h) (h_timers h)
           (h_now h) (h_channels h) (h_fired h) (h_modalOpen h)
           (h_modalClose h) (h_transitionend h).
Definition h_set_classes (v0 : string) (v1 : string) (h : handshake) : handshake :=
  Handshake (h_isOpen h) v0 v1 (h_overlay_parent h) (h_dialog_parent h)
           (h_body h) (h_listeners h) (h_timers h) (h_now h) (h_channels h)
           (h_fired h) (h_modalOpen h) (h_modalClose h) (h_transitionend h).
Definition h_set_overlay_parent (v0 : option nat) (h : handshake) : handshake :=
  Handshake (h_isOpen h) (h_overlay_class h) (h_dialog_class h) v0
           (h_dialog_parent h) (h_body h) (h_listeners h) (h_timers h)
           (h_now h) (h_channels h) (h_fired h) (h_modalOpen h)
           (h_modalClose h) (h_transitionend h).
Definition h_set_dialog_parent (v0 : option nat) (h : handshake) : handshake :=
  Handshake (h_isOpen h) (h_overlay_class h) (h_dialog_class h)
           (h_overlay_parent h) v0 (h_body h) (h_listeners h) (h_timers h)
           (h_now h) (h_channels h) (h_fired h) (h_modalOpen h)
           (h_modalClose h) (h_transitionend h).
Definition h_set_listeners (v0 : gset string) (h : handshake) : handshake :=
  Handshake (h_isOpen h) (h_overlay_class h) (h_dialog_class h)
           (h_overlay_parent h) (h_dialog_parent h) (h_body h) v0 (h_timers h)
           (h_now h) (h_channels h) (h_fired h) (h_modalOpen h)
           (h_modalClose h) (h_transitionend h).
Definition h_set_timers (v0 : list nat) (h : handshake) : handshake :=
  Handshake (h_isOpen h) (h_overlay_class h) (h_dialog_class h)
           (h_overlay_parent h) (h_dialog_parent h) (h_body h) (h_listeners h)
           v0 (h_now h) (h_channels h) (h_fired h) (h_modalOpen h)
           (h_modalClose h) (h_transitionend h).
Definition h_set_now (v0 : nat) (h : handshake) : handshake :=
  Handshake (h_isOpen h) (h_overlay_class h) (h_dialog_class h)
           (h_overlay_parent h) (h_dialog_parent h) (h_body h) (h_listeners h)
           (h_timers h) v0 (h_channels h) (h_fired h) (h_modalOpen h)
           (h_modalClose h) (h_transitionend h).
Definition h_set_channels (v0 : list PLEvent) (h : handshake) : handshake :=
  Handshake (h_isOpen h) (h_overlay_class h) (h_dialog_class h)
           (h_overlay_parent h) (h_dialog_parent h) (h_body h) (h_listeners h)
           (h_timers h) (h_now h) v0 (h_fired h) (h_modalOpen h)
           (h_modalClose h) (h_transitionend h).
Definition h_set_fired (v0 : list firing) (h : handshake) : handshake :=
  Handshake (h_isOpen h) (h_overlay_class h) (h_dialog_class h)
           (h_overlay_parent h) (h_dialog_parent h) (h_body h) (h_listeners h)
           (h_timers h) (h_now h) (h_channels h) v0 (h_modalOpen h)
           (h_modalClose h) (h_transitionend h).
Definition h_set_modalOpen (v0 : option nat) (h : handshake) : handshake :=
  Handshake (h_isOpen h) (h_overlay_class h) (h_dialog_class h)
           (h_overlay_parent h) (h_dialog_parent h) (h_body h) (h_listeners h)
           (h_timers h) (h_now h) (h_channels h) (h_fired h) v0
           (h_modalClose h) (h_transitionend h).
Definition h_set_modalClose (v0 : option nat) (h : handshake) : handshake :=
  Handshake (h_isOpen h) (h_overlay_class h) (h_dialog_class h)
           (h_overlay_parent h) (h_dialog_parent h) (h_body h) (h_listeners h)
           (h_timers h) (h_now h) (h_channels h) (h_fired h) (h_modalOpen h)
           v0 (h_transitionend h).

Definition h_notification (c : option nat) (h : handshake) : list firing :=
  match c with
  | Some c => [(c, PLEvent_fire (default PLEvent_new (h_channels h !! c)))]
  | None => []
  end.

(** A processed completion signal. *)
Definition h_toggle (h : handshake) : result unit * handshake :=
  let h1 := h_set_listeners (h_listeners h ∖ {[ ToString (h_transitionend h) ]}) h in
  if h_isOpen h then
    let h2 := h_set_fired (h_fired h ++ h_notification (h_modalClose h) h) h1 in
    match h_overlay_parent h with
    | None => (Throw TypeError, h2)
    | Some _ =>
        match h_dialog_parent h with
        | None => (Throw TypeError, h_set_overlay_parent None h2)
        | Some _ =>
            (Ok tt,
             h_set_timers (h_timers h ++ [h_now h + 50])
               (h_set_isOpen false
                  (h_set_dialog_parent None (h_set_overlay_parent None h2))))
        end
    end
  else
    (Ok tt,
     h_set_timers (h_timers h ++ [h_now h + 50])
       (h_set_isOpen true
          (h_set_fired (h_fired h ++ h_notification (h_modalOpen h) h) h1))).

Definition hstep (e : event) (h : handshake) : result unit * handshake :=
  match e with
  | CallOpen =>
      if h_isOpen h then (Ok tt, h) else
      (Ok tt,
       h_set_classes (h_overlay_class h +:+ " modal-open")
                     (h_dialog_class h +:+ " modal-open")
         (h_set_overlay_parent (Some (h_body h))
            (h_set_dialog_parent (Some (h_body h)) h)))
  | CallClose =>
      if h_isOpen h then
        (Ok tt,
         h_set_classes (replace_modal_open (h_overlay_class h))
                       (replace_modal_open (h_dialog_class h)) h)
      else (Ok tt, h)
  | ReadModalOpen =>
      match h_modalOpen h with
      | Some _ => (Ok tt, h)
      | None =>
          (Ok tt,
           h_set_modalOpen (Some (length (h_channels h)))
             (h_set_channels (h_channels h ++ [PLEvent_new]) h))
      end
  | ReadModalClose =>
      match h_modalClose h with
      | Some _ => (Ok tt, h)
      | None =>
          (Ok tt,
           h_set_modalClose (Some (length (h_channels h)))
             (h_set_channels (h_channels h ++ [PLEvent_new]) h))
      end
  | Handle c l =>
      (Ok tt, h_set_channels (alter (PLEvent_handle l) c (h_channels h)) h)
  | Dispatch type =>
      if bool_decide (type ∈ h_listeners h) then h_toggle h else (Ok tt, h)
  | Elapse ms =>
      let t := h_now h + ms in
      (Ok tt,
       h_set_listeners
         (rearm (h_transitionend h) (filter (λ due, due ≤ t) (h_timers h))
                (h_listeners h))
         (h_set_timers (filter (λ due, t < due) (h_timers h)) (h_set_now t h)))
  | CallSetContent _ | KeyDown _ | ClickCloseButton => (Ok tt, h)
  end.

(** A run of the machine. *)
Definition hrun (es : list event) (h : handshake) : handshake :=
  foldl (λ h e, (hstep e h).2) h es.

(** The outcome of every event of a run, for the machine and for the page. *)
Fixpoint houtcomes (es : list event) (h : handshake) : list (result unit) :=
  match es with
  | [] => []
  | e :: es' => (hstep e h).1 :: houtcomes es' (hstep e h).2
  end.

Fixpoint outcomes (es : list event) (w : world) : list (result unit) :=
  match es with
  | [] => []
  | e :: es' => (step e w).1 :: outcomes es' (step e w).2
  end.

(** ** Further notions used below *)

(** [s] without the white space ([\s]) at its end. *)
Fixpoint trim_end (s : string) : string :=
  match s with
  | EmptyString => EmptyString
  | String a s' =>
      match trim_end s' with
      | EmptyString => if is_regex_space a then EmptyString else String a EmptyString
      | r => String a r
      end
  end.

(** One whole handshake: [open], its completion signal, a wait, [close], its
    completion signal, a wait. *)
Definition open_close_cycle (type : string) (shown hidden : nat) : list event :=
  [CallOpen; Dispatch type; Elapse shown; CallClose; Dispatch type; Elapse hidden].

(** The handshake at rest: the modal is closed, the completion listener is
    attached with no timer pending, and neither class name holds the
    literal that [open] appends. *)
Definition at_rest (h : handshake) : Prop :=
  h_isOpen h = false ∧
  h_listeners h = {[ ToString (h_transitionend h) ]} ∧
  h_timers h = [] ∧
  occurs modal_open (h_overlay_class h) = false ∧
  occurs modal_open (h_dialog_class h) = false.

(** What one whole handshake adds to the record of firings. *)
Definition h_cycle_firings (h : handshake) : list firing :=
  h_notification (h_modalOpen h) h ++ h_notification (h_modalClose h) h.

(** The completion listener is detached and nothing will re-attach it. *)
Definition deaf (w : world) : Prop :=
  modal_listeners w = ∅ ∧ timers w = [].

(** The completion listener is detached and one timer, due within 50 ms,
    will re-attach it. *)
Definition rearm_pending (w : world) : Prop :=
  modal_listeners w = ∅ ∧ ∃ t, timers w = [t] ∧ t ≤ now w + 50.

(** The three states of the completion listener. *)
Definition listener_state (w : world) : Prop :=
  armed w ∨ deaf w ∨ rearm_pending w.

(** The clock is left alone. *)
Definition same_clock (w w' : world) : Prop := now w' = now w.

(** The channel fields hold existing channels, and not the same one. *)
Definition channels_distinct (w : world) : Prop :=
  (∀ a, _modalOpen (this w) = Some a → a < length (channels w)) ∧
  (∀ b, _modalClose (this w) = Some b → b < length (channels w)) ∧
  (∀ a b, _modalOpen (this w) = Some a → _modalClose (this w) = Some b → a ≠ b).

(** The flag and the record of firings are left alone. *)
Definition flag_kept (w w' : world) : Prop :=
  _isOpen (this w') = _isOpen (this w) ∧ fired w' = fired w.

(** The channel fields and the number of channels are left alone. *)
Definition channel_fields_kept (w w' : world) : Prop :=
  _modalOpen (this w') = _modalOpen (this w) ∧
  _modalClose (this w') = _modalClose (this w) ∧
  length (channels w') = length (channels w).

(** No node of the store changes its class name. *)
Definition classes_kept (w w' : world) : Prop :=
  length (nodes w) ≤ length (nodes w') ∧
  ∀ n, n < length (nodes w) → class_of (nodes w') n = class_of (nodes w) n.

(** No node of the store other than [o] and [m] changes its class name. *)
Definition others_kept (o m : nat) (w w' : world) : Prop :=
  length (nodes w) ≤ length (nodes w') ∧
  ∀ n, n < length (nodes w) → n ≠ o → n ≠ m →
       class_of (nodes w') n = class_of (nodes w) n.

(** ** Relations between the page before and after a computation *)

(** What is fixed once the constructor has returned. *)
Definition same_static (w w' : world) : Prop :=
  body w' = body w ∧
  keydown_listener w' = keydown_listener w ∧
  click_listener w' = click_listener w ∧
  _overlay (this w') = _overlay (this w) ∧
  _modal (this w') = _modal (this w) ∧
  _content (this w') = _content (this w) ∧
  _closeButton (this w') = _closeButton (this w) ∧
  _settings (this w') = _settings (this w) ∧
  _transitionend (this w') = _transitionend (this w).

(** A channel field that has been assigned keeps its channel, and channel
    objects are never discarded. *)
Definition channels_kept (w w' : world) : Prop :=
  (∀ c, _modalClose (this w) = Some c → _modalClose (this w') = Some c) ∧
  (∀ c, _modalOpen (this w) = Some c → _modalOpen (this w') = Some c) ∧
  length (channels w) ≤ length (channels w').

(** Listeners, timers and the probed event name are left alone. *)
Definition same_timing (w w' : world) : Prop :=
  modal_listeners w' = modal_listeners w ∧
  timers w' = timers w ∧
  _transitionend (this w') = _transitionend (this w).

(** The settings and the probed event name are never reassigned. *)
Definition same_settings (w w' : world) : Prop :=
  _settings (this w') = _settings (this w) ∧
  _transitionend (this w') = _transitionend (this w).

(** [respects R m]: whatever [m] does to the page, and whether or not it
    throws, the page before and the page after are related by [R]. *)
Definition respects {A} (R : relation world) (m : M A) : Prop :=
  ∀ w, R w (m w).2.

(** ** Strings: the pattern of [close] *)

Section strings.

Implicit Types s p q r : string.

Lemma strip_prefix_app p s r q :
  strip_prefix p s = Some r → strip_prefix p (s +:+ q) = Some (r +:+ q).
Proof.
  revert s. induction p as [|a p IH]; intros s; simpl.
  - intros [= ->]. reflexivity.
  - destruct s as [|b s]; simpl; [discriminate|].
    destruct (Ascii.eqb a b); [apply IH | discriminate].
Qed.

(** A string without the character [sep] that is a prefix of [x ++ sep ++ t]
    is already a prefix of [x]. *)
Lemma strip_prefix_before_separator (sep : ascii) p x t r :
  occurs (String sep EmptyString) p = false →
  strip_prefix p (x +:+ String sep t) = Some r →
  ∃ r', strip_prefix p x = Some r'.
Proof.
  revert x. induction p as [|a p IH]; intros x Hfree; simpl.
  - eauto.
  - simpl in Hfree. destruct (Ascii.eqb sep a) eqn:Hsep; [discriminate|].
    destruct x as [|b x]; simpl.
    + rewrite Ascii.eqb_sym, Hsep. discriminate.
    + destruct (Ascii.eqb a b); [|discriminate].
      apply IH. destruct p; [reflexivity|]. exact Hfree.
Qed.

Lemma occurs_here p s r : strip_prefix p s = Some r → occurs p s = true.
Proof. intros H. destruct s; simpl; rewrite H; reflexivity. Qed.

Lemma occurs_tail p a s : occurs p s = true → occurs p (String a s) = true.
Proof. intros H. simpl. destruct (strip_prefix p (String a s)); [reflexivity | exact H]. Qed.

Lemma occurs_false_here p s : occurs p s = false → strip_prefix p s = None.
Proof.
  intros H. destruct (strip_prefix p s) eqn:E; [|reflexivity].
  apply occurs_here in E. congruence.
Qed.

Lemma occurs_false_tail p a s : occurs p (String a s) = false → occurs p s = false.
Proof.
  intros H. destruct (occurs p s) eqn:E; [|reflexivity].
  apply (occurs_tail p a) in E. congruence.
Qed.

Lemma occurs_app p s q : occurs p s = true → occurs p (s +:+ q) = true.
Proof.
  induction s as [|a s IH]; intros H.
  - destruct (strip_prefix p "") eqn:E; [|simpl in H; rewrite E in H; discriminate].
    eapply occurs_here, (strip_prefix_app _ _ _ q), E.
  - destruct (strip_prefix p (String a s)) eqn:E.
    + eapply occurs_here, (strip_prefix_app _ _ _ q), E.
    + simpl in H. simpl in E. rewrite E in H.
      change (String a s +:+ q) with (String a (s +:+ q)).
      apply occurs_tail, IH, H.
Qed.


Lemma replace_modal_open_eq s :
  replace_modal_open s =
  match match_at_start s with
  | Some r => r
  | None => match s with
            | EmptyString => EmptyString
            | String a s' => String a (replace_modal_open s')
            end
  end.
Proof. destruct s; reflexivity. Qed.

Lemma modal_open_before_space x t r :
  strip_prefix modal_open (x +:+ String " " t) = Some r →
  ∃ r', strip_prefix modal_open x = Some r'.
Proof.
  apply strip_prefix_before_separator. reflexivity.
Qed.

Lemma spaces_then_literal_at_end s r :
  occurs modal_open s = false →
  spaces_then_literal (s +:+ " modal-open") = Some r → r = "".
Proof.
  induction s as [|a s IH]; intros Hocc.
  - cbn. intros [= <-]. reflexivity.
  - change (String a s +:+ " modal-open") with (String a (s +:+ " modal-open")).
    simpl. destruct (is_regex_space a); [|discriminate].
    pose proof (occurs_false_tail _ _ _ Hocc) as Hs.
    destruct (spaces_then_literal (s +:+ " modal-open")) eqn:E.
    + intros [= <-]. apply IH; [exact Hs | reflexivity].
    + intros H. apply modal_open_before_space in H as [r' H].
      apply occurs_here in H. congruence.
Qed.

Lemma match_at_start_at_end s r :
  occurs modal_open s = false →
  match_at_start (s +:+ " modal-open") = Some r → r = "".
Proof.
  intros Hocc. unfold match_at_start.
  destruct (spaces_then_literal (s +:+ " modal-open")) eqn:E.
  - intros [= <-]. eapply spaces_then_literal_at_end; eauto.
  - intros H. apply modal_open_before_space in H as [r' H].
    apply occurs_here in H. congruence.
Qed.



End strings.

(** ** The capability probe *)

Lemma transitionSelect_loop_first style pre name post :
  Forall (λ n, style n = VUndefined) pre →
  style name ≠ VUndefined →
  transitionSelect_loop style (pre ++ name :: post) = event_name_of transEndEventNames name.
Proof.
  intros Hpre Hname. induction Hpre as [|n pre Hn _ IH]; simpl.
  - rewrite bool_decide_eq_true_2; [reflexivity | exact Hname].
  - rewrite bool_decide_eq_false_2; [exact IH | intros H; exact (H Hn)].
Qed.

Lemma transitionSelect_loop_none style names :
  Forall (λ n, style n = VUndefined) names →
  transitionSelect_loop style names = VUndefined.
Proof.
  induction 1 as [|n names Hn _ IH]; simpl; [reflexivity|].
  rewrite bool_decide_eq_false_2; [exact IH | intros H; exact (H Hn)].
Qed.

(** C7. [transitionSelect] probes WebkitTransition, MozTransition,
    OTransition and transition in this order and returns the completion-event
    name mapped to the first of them whose style property is not [undefined];
    when none of them exists it returns [undefined]. *)
Theorem transitionSelect_first_supported (style : string → jsval) :
  (∀ pre name ev post,
      transEndEventNames = pre ++ (name, ev) :: post →
      Forall (λ p, style p.1 = VUndefined) pre →
      style name ≠ VUndefined →
      transitionSelect style = VStr ev) ∧
  (Forall (λ p, style p.1 = VUndefined) transEndEventNames →
   transitionSelect style = VUndefined).
Proof.
  split.
  - intros pre name ev post Htbl Hpre Hname. unfold transitionSelect.
    rewrite Htbl, fmap_app, fmap_cons. simpl.
    rewrite transitionSelect_loop_first; [| by apply Forall_fmap | exact Hname].
    clear Hpre Hname. unfold transEndEventNames in Htbl.
    destruct pre as [|? [|? [|? [|? pre]]]]; simpl in Htbl;
      try (injection Htbl as <- <- <- <- Htbl; destruct pre; discriminate);
      simplify_eq; reflexivity.
  - intros Hnone. unfold transitionSelect.
    apply transitionSelect_loop_none. by apply Forall_fmap.
Qed.

Lemma transitionSelect_first_supported_witness :
  transitionSelect standard_style = VStr "transitionend" ∧
  transitionSelect (λ _, VUndefined) = VUndefined.
Proof.
  split.
  - apply (proj1 (transitionSelect_first_supported standard_style)
             [ ("WebkitTransition", "webkitTransitionEnd");
               ("MozTransition", "transitionend");
               ("OTransition", "otransitionend") ]
             "transition" "transitionend" []).
    + reflexivity.
    + repeat constructor.
    + discriminate.
  - apply (proj2 (transitionSelect_first_supported (λ _, VUndefined))).
    repeat constructor.
Defined.

(** ** The settings merge *)

Section merge.

Variable settings : jsobject.

Lemma copy_inherited l source :
  inherited (foldl (copy_property settings) source l) = inherited source.
Proof.
  revert source. induction l as [|x l IH]; intros source; simpl; [reflexivity|].
  rewrite IH. unfold copy_property. destruct (hasOwnProperty settings x); reflexivity.
Qed.

Lemma copy_own_lookup l source k :
  own (foldl (copy_property settings) source l) !! k =
  match (if bool_decide (k ∈ l) then own settings !! k else None) with
  | Some v => Some v
  | None => own source !! k
  end.
Proof.
  revert source. induction l as [|x l IH]; intros source; simpl.
  - reflexivity.
  - rewrite IH. clear IH.
    assert (own (copy_property settings source x) !! k =
            match (if bool_decide (k = x) then own settings !! k else None) with
            | Some v => Some v
            | None => own source !! k
            end) as ->.
    { unfold copy_property, hasOwnProperty, get_prop.
      destruct (decide (k = x)) as [->|Hk].
      - rewrite (bool_decide_eq_true_2 (x = x)) by done.
        destruct (own settings !! x) as [v|] eqn:Hx.
        + rewrite bool_decide_eq_true_2 by eauto. simpl. by rewrite lookup_insert_eq.
        + rewrite bool_decide_eq_false_2 by (intros [? ?]; discriminate). done.
      - rewrite (bool_decide_eq_false_2 (k = x)) by done.
        case_bool_decide; simpl; [by rewrite lookup_insert_ne|done]. }
    destruct (decide (k = x)) as [->|Hne].
    + rewrite (bool_decide_eq_true_2 (x = x)) by done.
      rewrite (bool_decide_eq_true_2 (x ∈ x :: l)) by apply list_elem_of_here.
      destruct (bool_decide (x ∈ l)); destruct (own settings !! x); done.
    + rewrite (bool_decide_eq_false_2 (k = x)) by done.
      assert (bool_decide (k ∈ x :: l) = bool_decide (k ∈ l)) as ->; [|done].
      apply bool_decide_ext. rewrite elem_of_cons. tauto.
Qed.

Lemma extendsDefaults_own source :
  own (extendsDefaults source settings) = own settings ∪ own source.
Proof.
  apply map_eq. intros k. unfold extendsDefaults.
  rewrite copy_own_lookup, lookup_union.
  destruct (own settings !! k) as [v|] eqn:Hk.
  - rewrite bool_decide_eq_true_2.
    + destruct (own source !! k); reflexivity.
    + unfold for_in_keys. apply elem_of_app. left.
      apply list_elem_of_fmap. exists (k, v). split; [reflexivity|].
      by apply elem_of_map_to_list.
  - destruct (bool_decide _); destruct (own source !! k); reflexivity.
Qed.

Lemma extendsDefaults_inherited source :
  inherited (extendsDefaults source settings) = inherited source.
Proof. apply copy_inherited. Qed.

End merge.

(** ** Computations that preserve a relation *)

Section respects.

Context (R : relation world) `{!PreOrder R}.

Lemma respects_ret {A} (a : A) : respects R (ret a).
Proof. intros w. reflexivity. Qed.

Lemma respects_throw {A} e : respects R (@throw A e).
Proof. intros w. reflexivity. Qed.

Lemma respects_gets {A} (f : world → A) : respects R (gets f).
Proof. intros w. reflexivity. Qed.

Lemma respects_modify f : (∀ w, R w (f w)) → respects R (modify f).
Proof. intros H w. apply H. Qed.

Lemma respects_bind {A B} (m : M A) (k : A → M B) :
  respects R m → (∀ a, respects R (k a)) → respects R (bind m k).
Proof.
  intros Hm Hk w. unfold bind. specialize (Hm w).
  destruct (m w) as [[a|e] w']; simpl in *; [|exact Hm].
  etrans; [exact Hm | apply Hk].
Qed.

Lemma respects_foldr_bind {X} (m : M unit) (l : list X) :
  respects R m → respects R (foldr (λ _ rest, bind m (λ _, rest)) (ret tt) l).
Proof.
  intros Hm. induction l as [|x l IH]; simpl.
  - apply respects_ret.
  - apply respects_bind; [exact Hm | intros _; exact IH].
Qed.

Lemma respects_run (es : list event) :
  (∀ e, e ∈ es → respects R (step e)) → ∀ w, R w (run es w).
Proof.
  unfold run. induction es as [|e es IH]; intros Hes w; simpl; [reflexivity|].
  etrans; [apply (Hes e), list_elem_of_here|].
  apply IH. intros e' He'. apply Hes. by apply list_elem_of_further.
Qed.

End respects.

(** ** The DOM store: how the operations move parents, classes and children *)

Section dom.

Implicit Types (ns : list node) (n c p i : nat).

Lemma parent_of_alter f i ns n :
  (∀ x, parentNode (f x) = parentNode x) →
  parent_of (alter f i ns) n = parent_of ns n.
Proof.
  intros Hf. unfold parent_of. destruct (decide (i = n)) as [->|Hne].
  - rewrite list_lookup_alter_eq. destruct (ns !! n); simpl; [apply Hf | reflexivity].
  - by rewrite list_lookup_alter_ne.
Qed.

Lemma class_of_alter f i ns n :
  (∀ x, className (f x) = className x) →
  class_of (alter f i ns) n = class_of ns n.
Proof.
  intros Hf. unfold class_of. destruct (decide (i = n)) as [->|Hne].
  - rewrite list_lookup_alter_eq. destruct (ns !! n); simpl; [apply Hf | reflexivity].
  - by rewrite list_lookup_alter_ne.
Qed.

Lemma children_of_alter f i ns n :
  (∀ x, childNodes (f x) = childNodes x) →
  children_of (alter f i ns) n = children_of ns n.
Proof.
  intros Hf. unfold children_of. destruct (decide (i = n)) as [->|Hne].
  - rewrite list_lookup_alter_eq. destruct (ns !! n); simpl; [apply Hf | reflexivity].
  - by rewrite list_lookup_alter_ne.
Qed.

Lemma parent_of_set_eq q i ns :
  i < length ns → parent_of (alter (with_parentNode q) i ns) i = q.
Proof.
  intros Hi. unfold parent_of. rewrite list_lookup_alter_eq.
  destruct (lookup_lt_is_Some_2 ns i Hi) as [x ->]. reflexivity.
Qed.

Lemma parent_of_unset i ns :
  parent_of (alter (with_parentNode None) i ns) i = None.
Proof.
  unfold parent_of. rewrite list_lookup_alter_eq. by destruct (ns !! i).
Qed.

Lemma parent_of_set_ne q i ns n :
  i ≠ n → parent_of (alter (with_parentNode q) i ns) n = parent_of ns n.
Proof. intros Hne. unfold parent_of. by rewrite list_lookup_alter_ne. Qed.

Lemma class_of_set_eq s i ns :
  i < length ns → class_of (alter (with_className s) i ns) i = s.
Proof.
  intros Hi. unfold class_of. rewrite list_lookup_alter_eq.
  destruct (lookup_lt_is_Some_2 ns i Hi) as [x ->]. reflexivity.
Qed.

Lemma class_of_set_ne s i ns n :
  i ≠ n → class_of (alter (with_className s) i ns) n = class_of ns n.
Proof. intros Hne. unfold class_of. by rewrite list_lookup_alter_ne. Qed.

Lemma children_of_set_eq f i ns :
  i < length ns →
  children_of (alter (with_childNodes f) i ns) i = f (children_of ns i).
Proof.
  intros Hi. unfold children_of. rewrite list_lookup_alter_eq.
  destruct (lookup_lt_is_Some_2 ns i Hi) as [x ->]. reflexivity.
Qed.

Lemma length_detach c ns : length (detach c ns) = length ns.
Proof.
  unfold detach. destruct (parent_of ns c); [|reflexivity].
  by rewrite !length_alter.
Qed.

Lemma parent_of_detach c ns n :
  parent_of (detach c ns) n = if decide (n = c) then None else parent_of ns n.
Proof.
  unfold detach. destruct (parent_of ns c) as [p|] eqn:Hc.
  - destruct (decide (n = c)) as [->|Hne].
    + apply parent_of_unset.
    + rewrite parent_of_set_ne by done. by apply parent_of_alter.
  - destruct (decide (n = c)) as [->|Hne]; [exact Hc | reflexivity].
Qed.

Lemma class_of_detach c ns n : class_of (detach c ns) n = class_of ns n.
Proof.
  unfold detach. destruct (parent_of ns c); [|reflexivity].
  rewrite !class_of_alter; done.
Qed.

Lemma length_attach_last p c ns : length (attach_last p c ns) = length ns.
Proof. unfold attach_last. by rewrite !length_alter, length_detach. Qed.

Lemma parent_of_attach_last p c ns n :
  c < length ns →
  parent_of (attach_last p c ns) n = if decide (n = c) then Some p else parent_of ns n.
Proof.
  intros Hc. unfold attach_last. rewrite parent_of_alter by done.
  destruct (decide (n = c)) as [->|Hne].
  - apply parent_of_set_eq. by rewrite length_detach.
  - rewrite parent_of_set_ne by done. rewrite parent_of_detach.
    by rewrite decide_False.
Qed.

Lemma class_of_attach_last p c ns n :
  class_of (attach_last p c ns) n = class_of ns n.
Proof.
  unfold attach_last. rewrite !class_of_alter by done. apply class_of_detach.
Qed.

Lemma children_of_attach_last p c ns :
  p < length ns → p ≠ c →
  children_of (attach_last p c ns) p = children_of (detach c ns) p ++ [c].
Proof.
  intros Hp Hne. unfold attach_last.
  rewrite children_of_set_eq by (by rewrite length_alter, length_detach).
  by rewrite children_of_alter.
Qed.

(** Closed stores stay closed. *)

Lemma closed_alter f i ns :
  (∀ x, parentNode (f x) = parentNode x) →
  store_closed ns → store_closed (alter f i ns).
Proof.
  intros Hf Hns n p. rewrite parent_of_alter by done. rewrite length_alter. apply Hns.
Qed.

Lemma closed_set_parent q i ns :
  (∀ p, q = Some p → p < length ns) →
  store_closed ns → store_closed (alter (with_parentNode q) i ns).
Proof.
  intros Hq Hns n p. rewrite length_alter.
  destruct (decide (i = n)) as [->|Hne].
  - unfold parent_of. rewrite list_lookup_alter_eq.
    destruct (ns !! n); simpl; [apply Hq | discriminate].
  - rewrite parent_of_set_ne by done. apply Hns.
Qed.

Lemma closed_detach c ns : store_closed ns → store_closed (detach c ns).
Proof.
  intros Hns. unfold detach. destruct (parent_of ns c); [|exact Hns].
  apply closed_set_parent; [discriminate|]. by apply closed_alter.
Qed.

Lemma closed_attach_last p c ns :
  p < length ns → store_closed ns → store_closed (attach_last p c ns).
Proof.
  intros Hp Hns. unfold attach_last. apply closed_alter; [done|].
  apply closed_set_parent.
  - intros ? [= <-]. by rewrite length_detach.
  - by apply closed_detach.
Qed.

Lemma parent_of_snoc ns x n :
  parentNode x = None → parent_of (ns ++ [x]) n = parent_of ns n.
Proof.
  intros Hx. unfold parent_of. destruct (decide (n < length ns)) as [Hn|Hn].
  - by rewrite lookup_app_l.
  - rewrite (lookup_ge_None_2 ns n) by lia.
    rewrite lookup_app_r by lia.
    destruct (n - length ns) as [|k]; simpl; [exact Hx | reflexivity].
Qed.

Lemma class_of_snoc ns x n : n < length ns → class_of (ns ++ [x]) n = class_of ns n.
Proof. intros Hn. unfold class_of. by rewrite lookup_app_l. Qed.

Lemma children_of_snoc ns x n :
  n < length ns → children_of (ns ++ [x]) n = children_of ns n.
Proof. intros Hn. unfold children_of. by rewrite lookup_app_l. Qed.

Lemma closed_snoc ns x :
  parentNode x = None → store_closed ns → store_closed (ns ++ [x]).
Proof.
  intros Hx Hns n p. rewrite parent_of_snoc by done. rewrite length_app. simpl.
  intros H. apply Hns in H. lia.
Qed.

Lemma length_unparent (l : list nat) ns :
  length (foldr (λ c, alter (with_parentNode None) c) ns l) = length ns.
Proof. induction l as [|c l IH]; simpl; [reflexivity|]. by rewrite length_alter. Qed.

Lemma closed_unparent (l : list nat) ns :
  store_closed ns → store_closed (foldr (λ c, alter (with_parentNode None) c) ns l).
Proof.
  intros Hns. induction l as [|c l IH]; simpl; [exact Hns|].
  apply closed_set_parent; [discriminate | exact IH].
Qed.

(** The ancestor test. *)

Lemma not_ancestor_of_root fuel ns a n :
  n ≠ a → parent_of ns n = None → inclusive_ancestor fuel ns a n = false.
Proof.
  intros Hne Hroot. destruct fuel; simpl; rewrite ?Hroot;
    (rewrite (proj2 (Nat.eqb_neq n a)) by done); reflexivity.
Qed.

(** A node that was just created is nobody's ancestor. *)
Lemma not_ancestor_fresh fuel ns x n :
  parentNode x = None → store_closed ns → n < length ns →
  inclusive_ancestor fuel (ns ++ [x]) (length ns) n = false.
Proof.
  intros Hx Hns. revert n. induction fuel as [|fuel IH]; intros n Hn; simpl;
    (rewrite (proj2 (Nat.eqb_neq n (length ns))) by lia); [reflexivity|].
  simpl. rewrite parent_of_snoc by done.
  destruct (parent_of ns n) as [p|] eqn:Hp; [|reflexivity].
  apply IH. by apply (Hns n).
Qed.

End dom.

(** ** What no event changes *)

#[global] Instance same_static_preorder : PreOrder same_static.
Proof.
  split.
  - intros w. unfold same_static. tauto.
  - intros w1 w2 w3 H12 H23. unfold same_static in *.
    destruct H12 as (?&?&?&?&?&?&?&?&?), H23 as (?&?&?&?&?&?&?&?&?).
    repeat split; congruence.
Qed.

#[global] Instance same_settings_preorder : PreOrder same_settings.
Proof.
  split.
  - intros w. unfold same_settings. tauto.
  - intros w1 w2 w3 [? ?] [? ?]. split; congruence.
Qed.

#[global] Instance channels_kept_preorder : PreOrder channels_kept.
Proof.
  split.
  - intros w. unfold channels_kept. auto.
  - intros w1 w2 w3 (Hc1 & Ho1 & Hl1) (Hc2 & Ho2 & Hl2). unfold channels_kept.
    split; [|split]; [auto | auto | lia].
Qed.

(** Break a computation into its primitive steps; [leaf] proves the relation
    for a step that is written as a function of the page. *)
Ltac respects_steps leaf :=
  repeat match goal with
  | |- respects _ (bind _ _) => apply respects_bind; [apply _ | | intros ?]
  | |- respects _ (ret _) => apply respects_ret; apply _
  | |- respects _ (gets _) => apply respects_gets; apply _
  | |- respects _ (throw _) => apply respects_throw; apply _
  | |- respects _ (foldr _ _ _) => apply respects_foldr_bind; [apply _ |]
  | |- respects _ (if ?b then _ else _) => destruct b
  | |- respects _ (match ?x with _ => _ end) => destruct x
  | |- respects _ _ =>
      intros ?;
      unfold modify, createElement, createTextNode, appendChild,
        parentNode_removeChild, new_PLEvent;
      repeat case_match; simpl; leaf
  end.

Ltac unfold_methods :=
  unfold step, on_keydown, run_due_timers, setContent, open, close, modalOpen,
    modalClose, toggleTransitionend, onModalClose, onModalOpen, removeFromDom,
    initializeEvents, buildOut, fire, setTimeout_rearm, addEventListener_modal,
    removeEventListener_modal, clear_innerHTML, set_className, get_className.

Lemma step_same_static e : respects same_static (step e).
Proof.
  destruct e; unfold_methods;
    respects_steps ltac:(unfold same_static; simpl; tauto).
Qed.

Lemma modalOpen_channels_kept : respects channels_kept modalOpen.
Proof.
  intros w. unfold modalOpen, bind, gets, modify, ret, new_PLEvent. simpl.
  destruct (_modalOpen (this w)) eqn:E; simpl; [reflexivity|].
  unfold channels_kept. simpl. rewrite E, length_app. simpl.
  repeat split; (auto || discriminate || lia).
Qed.

Lemma modalClose_channels_kept : respects channels_kept modalClose.
Proof.
  intros w. unfold modalClose, bind, gets, modify, ret, new_PLEvent. simpl.
  destruct (_modalClose (this w)) eqn:E; simpl; [reflexivity|].
  unfold channels_kept. simpl. rewrite E, length_app. simpl.
  repeat split; (auto || discriminate || lia).
Qed.

Lemma step_channels_kept e : respects channels_kept (step e).
Proof.
  destruct e;
    try (unfold_methods;
         respects_steps ltac:(unfold channels_kept; simpl;
                              rewrite ?length_app, ?length_alter; simpl;
                              repeat split; (congruence || lia || auto)); fail).
  - unfold step. apply respects_bind; [apply _ | apply modalOpen_channels_kept |].
    intros _. apply respects_ret. apply _.
  - unfold step. apply respects_bind; [apply _ | apply modalClose_channels_kept |].
    intros _. apply respects_ret. apply _.
Qed.

Lemma run_same_static es w : same_static w (run es w).
Proof. apply respects_run; [apply _|]. intros e _. apply step_same_static. Qed.

Lemma run_channels_kept es w : channels_kept w (run es w).
Proof. apply respects_run; [apply _|]. intros e _. apply step_channels_kept. Qed.


(** ** The methods, one case at a time *)

Section methods.

Implicit Types w : world.

Lemma frame_ok_set_nodes f w :
  frame_ok w →
  length (f (nodes w)) = length (nodes w) →
  parent_of (f (nodes w)) (body w) = None →
  frame_ok (set_nodes f w).
Proof.
  intros [] Hlen Hroot. split; simpl; rewrite ?Hlen; assumption.
Qed.

Lemma open_when_open w : isOpen w = true → open w = (Ok tt, w).
Proof. unfold isOpen, open, bind, gets. intros ->. reflexivity. Qed.

Lemma close_when_closed w : isOpen w = false → close w = (Ok tt, w).
Proof. unfold isOpen, close, bind, gets. intros ->. reflexivity. Qed.

(** The node store after a successful [open]. *)
Lemma open_when_closed w :
  frame_ok w → isOpen w = false →
  ∃ f, open w = (Ok tt, set_nodes f w) ∧
       length (f (nodes w)) = length (nodes w) ∧
       (∀ n, parent_of (f (nodes w)) n =
             if decide (n = _modal (this w)) then Some (body w)
             else if decide (n = _overlay (this w)) then Some (body w)
             else parent_of (nodes w) n) ∧
       class_of (f (nodes w)) (_overlay (this w)) =
         class_of (nodes w) (_overlay (this w)) +:+ " modal-open" ∧
       class_of (f (nodes w)) (_modal (this w)) =
         class_of (nodes w) (_modal (this w)) +:+ " modal-open".
Proof.
  intros [Hb Ho Hm Hom Hob Hmb Hroot] Hclosed.
  set (o := _overlay (this w)) in *. set (m := _modal (this w)) in *.
  set (ns1 := attach_last (body w) o (nodes w)).
  set (ns2 := attach_last (body w) m ns1).
  set (ns3 := alter (with_className (class_of ns2 o +:+ " modal-open")) o ns2).
  set (ns4 := alter (with_className (class_of ns3 m +:+ " modal-open")) m ns3).
  assert (length ns1 = length (nodes w)) as Hl1 by apply length_attach_last.
  assert (length ns2 = length (nodes w)) as Hl2
    by (unfold ns2; by rewrite length_attach_last).
  assert (length ns3 = length (nodes w)) as Hl3
    by (unfold ns3; by rewrite length_alter).
  exists (λ _, ns4). split; [|split; [|split; [|split]]].
  - unfold open, bind, gets, appendChild, get_className, set_className, modify.
    unfold isOpen in Hclosed. simpl. rewrite Hclosed. simpl. fold o m.
    rewrite not_ancestor_of_root by (fold o; auto). simpl. fold ns1.
    rewrite not_ancestor_of_root; [reflexivity | fold m; auto |].
    unfold ns1. rewrite parent_of_attach_last by done.
    rewrite decide_False by auto. exact Hroot.
  - unfold ns4. by rewrite length_alter.
  - intros n. unfold ns4, ns3. rewrite !parent_of_alter by done.
    unfold ns2. rewrite parent_of_attach_last by lia.
    destruct (decide (n = m)); [reflexivity|].
    unfold ns1. by rewrite parent_of_attach_last.
  - unfold ns4. rewrite class_of_set_ne by auto.
    unfold ns3. rewrite class_of_set_eq by lia.
    unfold ns2, ns1. by rewrite !class_of_attach_last.
  - unfold ns4. rewrite class_of_set_eq by lia.
    unfold ns3. rewrite class_of_set_ne by auto.
    unfold ns2, ns1. by rewrite !class_of_attach_last.
Qed.

(** The node store after [close] on an open modal. *)
Lemma close_when_open w :
  frame_ok w → isOpen w = true →
  ∃ f, close w = (Ok tt, set_nodes f w) ∧
       length (f (nodes w)) = length (nodes w) ∧
       (∀ n, parent_of (f (nodes w)) n = parent_of (nodes w) n) ∧
       class_of (f (nodes w)) (_overlay (this w)) =
         replace_modal_open (class_of (nodes w) (_overlay (this w))) ∧
       class_of (f (nodes w)) (_modal (this w)) =
         replace_modal_open (class_of (nodes w) (_modal (this w))).
Proof.
  intros [Hb Ho Hm Hom Hob Hmb Hroot] Hopen.
  set (o := _overlay (this w)) in *. set (m := _modal (this w)) in *.
  set (ns1 := alter (with_className (replace_modal_open (class_of (nodes w) o))) o (nodes w)).
  set (ns2 := alter (with_className (replace_modal_open (class_of ns1 m))) m ns1).
  exists (λ _, ns2). split; [|split; [|split; [|split]]].
  - unfold close, bind, gets, get_className, set_className, modify.
    unfold isOpen in Hopen. simpl. rewrite Hopen. reflexivity.
  - unfold ns2, ns1. by rewrite !length_alter.
  - intros n. unfold ns2, ns1. by rewrite !parent_of_alter.
  - unfold ns2. rewrite class_of_set_ne by auto.
    unfold ns1. by rewrite class_of_set_eq.
  - unfold ns2. rewrite class_of_set_eq by (unfold ns1; by rewrite length_alter).
    unfold ns1. by rewrite class_of_set_ne.
Qed.

Lemma removeFromDom_attached w po pd :
  _overlay (this w) ≠ _modal (this w) →
  overlay_parent w = Some po → dialog_parent w = Some pd →
  removeFromDom w =
    (Ok tt, set_nodes (detach (_modal (this w))) (set_nodes (detach (_overlay (this w))) w)).
Proof.
  unfold overlay_parent, dialog_parent. intros Hne Ho Hd.
  unfold removeFromDom, bind, gets, parentNode_removeChild. simpl.
  rewrite Ho. simpl. rewrite parent_of_detach, decide_False by auto.
  rewrite Hd. reflexivity.
Qed.

Lemma removeFromDom_overlay_detached w :
  overlay_parent w = None → removeFromDom w = (Throw TypeError, w).
Proof.
  unfold overlay_parent. intros Ho.
  unfold removeFromDom, bind, gets, parentNode_removeChild. simpl.
  rewrite Ho. reflexivity.
Qed.

Lemma removeFromDom_dialog_detached w po :
  _overlay (this w) ≠ _modal (this w) →
  overlay_parent w = Some po → dialog_parent w = None →
  removeFromDom w = (Throw TypeError, set_nodes (detach (_overlay (this w))) w).
Proof.
  unfold overlay_parent, dialog_parent. intros Hne Ho Hd.
  unfold removeFromDom, bind, gets, parentNode_removeChild. simpl.
  rewrite Ho. simpl. rewrite parent_of_detach, decide_False by auto.
  rewrite Hd. reflexivity.
Qed.

(** The page after firing the channel held in an accessor field. *)
Lemma fire_field_eq (c : option nat) w :
  match c with Some c => fire c | None => ret tt end w =
  (Ok tt, set_fired (λ l, l ++ notification c w) w).
Proof.
  destruct c; unfold fire, modify, ret, notification; simpl; [reflexivity|].
  destruct w; unfold set_fired; simpl. by rewrite app_nil_r.
Qed.

Lemma toggleTransitionend_eq w :
  toggleTransitionend w =
  let w1 := set_modal_listeners (λ l, l ∖ {[ ToString (_transitionend (this w)) ]}) w in
  if isOpen w then
    let w2 := set_fired (λ l, l ++ notification (_modalClose (this w)) w) w1 in
    match removeFromDom w2 with
    | (Ok _, w3) =>
        (Ok tt, set_timers (λ l, l ++ [now w + 50]) (set_this (with_isOpen false) w3))
    | (Throw e, w3) => (Throw e, w3)
    end
  else
    let w2 := set_fired (λ l, l ++ notification (_modalOpen (this w)) w) w1 in
    (Ok tt, set_timers (λ l, l ++ [now w + 50]) (set_this (with_isOpen true) w2)).
Proof.
  assert (Hn : ∀ c f, notification c (set_modal_listeners f w) = notification c w)
    by (intros [] ?; reflexivity).
  unfold toggleTransitionend, isOpen. unfold bind at 1. unfold gets at 1.
  destruct (_isOpen (this w)) eqn:Hopen; simpl.
  - unfold bind at 1. unfold gets at 1. unfold bind at 1.
    unfold removeEventListener_modal, modify at 1.
    unfold onModalClose. unfold bind at 1. unfold bind at 1. unfold bind at 1.
    unfold gets at 1. simpl.
    rewrite fire_field_eq. simpl. rewrite Hn.
    unfold bind at 1.
    match goal with |- context [removeFromDom ?x] => destruct (removeFromDom x) as [[[]|e] w3] eqn:Hr end;
      simpl; [|reflexivity].
    unfold setTimeout_rearm, modify, bind. simpl.
    assert (now w3 = now w) as ->; [|reflexivity].
    revert Hr. unfold removeFromDom, bind, gets, parentNode_removeChild. simpl.
    repeat case_match; intros; simplify_eq; reflexivity.
  - unfold bind at 1. unfold gets at 1. unfold bind at 1.
    unfold removeEventListener_modal, modify at 1.
    unfold onModalOpen. unfold bind at 1. unfold bind at 1. unfold bind at 1.
    unfold gets at 1. simpl.
    rewrite fire_field_eq. simpl. rewrite Hn. reflexivity.
Qed.

Lemma run_cons e es w : run (e :: es) w = run es (step e w).2.
Proof. reflexivity. Qed.

Lemma run_nil w : run [] w = w.
Proof. reflexivity. Qed.

Lemma dispatch_listening ty w :
  ty ∈ modal_listeners w → step (Dispatch ty) w = toggleTransitionend w.
Proof.
  intros H. unfold step, bind, gets. simpl. by rewrite bool_decide_eq_true_2.
Qed.

Lemma dispatch_not_listening ty w :
  ty ∉ modal_listeners w → step (Dispatch ty) w = (Ok tt, w).
Proof.
  intros H. unfold step, bind, gets. simpl. by rewrite bool_decide_eq_false_2.
Qed.

End methods.

(** ** Timers and quiet periods *)

Section timers.

Implicit Types w : world.

Lemma filter_keeps_all (P : nat → Prop) `{!∀ x, Decision (P x)} (l : list nat) :
  (∀ x, x ∈ l → P x) → filter P l = l.
Proof.
  induction l as [|x l IH]; intros Hl; [reflexivity|].
  rewrite filter_cons_True by (apply Hl, list_elem_of_here).
  f_equal. apply IH. intros y Hy. apply Hl. by apply list_elem_of_further.
Qed.

Lemma filter_drops_all (P : nat → Prop) `{!∀ x, Decision (P x)} (l : list nat) :
  (∀ x, x ∈ l → ¬ P x) → filter P l = [].
Proof.
  induction l as [|x l IH]; intros Hl; [reflexivity|].
  rewrite filter_cons_False by (apply Hl, list_elem_of_here).
  apply IH. intros y Hy. apply Hl. by apply list_elem_of_further.
Qed.

Lemma rearm_shift te due (l : gset string) :
  rearm te due ({[ ToString te ]} ∪ l) = {[ ToString te ]} ∪ rearm te due l.
Proof. induction due as [|d due IH]; simpl; [reflexivity|]. by rewrite IH. Qed.

Lemma rearm_due te due (l : gset string) :
  due ≠ [] → rearm te due l = {[ ToString te ]} ∪ l.
Proof.
  intros Hne. induction due as [|d due IH]; [done|]. simpl.
  destruct due as [|d' due]; [reflexivity|].
  rewrite IH by done. by rewrite (assoc_L (∪)), union_idemp_L.
Qed.

Lemma rearm_all te due w :
  foldr (λ _ rest, bind (addEventListener_modal te) (λ _, rest)) (ret tt) due w =
  (Ok tt, set_modal_listeners (rearm te due) w).
Proof.
  revert w. induction due as [|d due IH]; intros w; simpl.
  - unfold ret. by destruct w.
  - unfold bind at 1. unfold addEventListener_modal, modify. rewrite IH.
    destruct w. unfold set_modal_listeners. simpl. by rewrite rearm_shift.
Qed.

Lemma elapse_eq ms w :
  step (Elapse ms) w =
  (Ok tt,
   set_modal_listeners
     (rearm (_transitionend (this w)) (filter (λ due, due ≤ now w + ms) (timers w)))
     (set_timers (filter (λ due, now w + ms < due)) (set_now (now w + ms) w))).
Proof.
  unfold step, run_due_timers. unfold bind at 1 2 3 4, gets, modify. simpl.
  exact (rearm_all (_transitionend (this w)) _ _).
Qed.

(** While no timer is due, waiting only moves the clock. *)
Lemma elapse_early ms w :
  (∀ t, t ∈ timers w → now w + ms < t) →
  step (Elapse ms) w = (Ok tt, set_now (now w + ms) w).
Proof.
  intros Hearly. rewrite elapse_eq. f_equal.
  assert (filter (λ due, due ≤ now w + ms) (timers w) = []) as ->.
  { apply filter_drops_all. intros t Ht. apply Hearly in Ht. lia. }
  assert (filter (λ due, now w + ms < due) (timers w) = timers w) as Hkeep.
  { apply filter_keeps_all. exact Hearly. }
  destruct w. unfold set_modal_listeners, set_timers, set_now in *. simpl in *.
  by rewrite Hkeep.
Qed.

(** With the listener detached and no timer due, signals and waiting change
    nothing but the clock. *)
Lemma quiet_run es w :
  modal_listeners w = ∅ →
  forallb signal_or_wait es = true →
  (∀ t, t ∈ timers w → now w + elapsed es < t) →
  run es w = set_now (now w + elapsed es) w.
Proof.
  revert w. induction es as [|e es IH]; intros w Hl Hes Hearly.
  - simpl. rewrite Nat.add_0_r. by destruct w.
  - simpl in Hes. apply andb_true_iff in Hes as [He Hes].
    rewrite run_cons. destruct e; try discriminate.
    + rewrite dispatch_not_listening by (rewrite Hl; apply not_elem_of_empty).
      simpl. apply IH; assumption.
    + simpl in Hearly. rewrite elapse_early by (intros t Ht; apply Hearly in Ht; lia).
      simpl. rewrite IH.
      * simpl. destruct w. unfold set_now. simpl. f_equal. lia.
      * exact Hl.
      * exact Hes.
      * simpl. intros t Ht. apply Hearly in Ht. lia.
Qed.

Lemma removeFromDom_nodes_only w : ∃ f, (removeFromDom w).2 = set_nodes f w.
Proof.
  unfold removeFromDom, bind, gets, parentNode_removeChild. simpl.
  destruct (parent_of (nodes w) (_overlay (this w))); simpl.
  - destruct (parent_of _ (_modal (this w))); simpl.
    + exists (λ ns, detach (_modal (this w)) (detach (_overlay (this w)) ns)).
      by destruct w.
    + by exists (detach (_overlay (this w))).
  - exists (λ ns, ns). by destruct w.
Qed.

(** A completion handler that starts with the listener attached and no
    re-arm pending leaves the listener detached; it has fired the channel
    that was due, and has set the re-arm timer unless it threw. *)
Lemma toggle_when_armed w :
  armed w →
  ∃ v w1,
    toggleTransitionend w = (v, w1) ∧
    modal_listeners w1 = ∅ ∧
    fired w1 = fired w ++ notification (channel_due w) w ∧
    now w1 = now w ∧
    _transitionend (this w1) = _transitionend (this w) ∧
    timers w1 = (if decide (v = Ok tt) then [now w + 50] else []).
Proof.
  intros [Hl Ht]. rewrite toggleTransitionend_eq. cbv zeta. unfold channel_due.
  destruct (isOpen w).
  - match goal with
    | |- context [removeFromDom ?x] =>
        destruct (removeFromDom_nodes_only x) as [f Hf];
        destruct (removeFromDom x) as [[[]|e] w3]
    end; simpl in Hf; subst w3; eexists _, _; (split; [reflexivity|]);
      simpl; rewrite Hl, Ht; repeat split; apply difference_diag_L.
  - eexists _, _. split; [reflexivity|].
    simpl. rewrite Hl, Ht. repeat split. apply difference_diag_L.
Qed.

End timers.

(** ** Content assignment *)

Section content.

Implicit Types w : world.

Lemma clear_innerHTML_slot w :
  slot_ok w →
  let w1 := (clear_innerHTML (_content (this w)) w).2 in
  slot_ok w1 ∧
  children_of (nodes w1) (_content (this w)) = [] ∧
  this w1 = this w.
Proof.
  intros [Hslot Hclosed]. unfold clear_innerHTML, modify. simpl.
  split; [split|split]; simpl.
  - by rewrite length_alter, length_unparent.
  - apply closed_alter; [done|]. by apply closed_unparent.
  - rewrite children_of_set_eq; [reflexivity|]. by rewrite length_unparent.
  - reflexivity.
Qed.

(** Appending a text node that was just created to an empty slot. *)
Lemma append_new_text s w :
  slot_ok w →
  children_of (nodes w) (_content (this w)) = [] →
  let r := bind (createTextNode s) (appendChild (_content (this w))) w in
  r.1 = Ok tt ∧ slot_ok r.2 ∧ slot_is_text s r.2 ∧ this r.2 = this w.
Proof.
  intros [Hslot Hclosed] Hempty.
  set (slot := _content (this w)) in *.
  set (x := Node (TextNode s) "" None []).
  unfold bind, createTextNode, appendChild. simpl. fold x.
  rewrite not_ancestor_fresh by done. simpl.
  assert (parent_of (nodes w ++ [x]) (length (nodes w)) = None) as Hfresh.
  { rewrite parent_of_snoc by done. unfold parent_of.
    by rewrite lookup_ge_None_2. }
  assert (slot < length (nodes w ++ [x])) as Hslot'
    by (rewrite length_app; simpl; lia).
  split; [reflexivity|]. split; [split|split]; simpl; fold slot.
  - by rewrite length_attach_last.
  - apply closed_attach_last; [exact Hslot'|]. by apply closed_snoc.
  - unfold slot_is_text. simpl. fold slot. exists (length (nodes w)). split.
    + rewrite children_of_attach_last by (done || lia).
      unfold detach. rewrite Hfresh.
      rewrite children_of_snoc by done. by rewrite Hempty.
    + unfold attach_last, detach. rewrite Hfresh.
      rewrite list_lookup_alter_ne by lia.
      rewrite list_lookup_alter_eq.
      rewrite lookup_app_r by lia. by rewrite Nat.sub_diag.
  - reflexivity.
Qed.

Lemma setContent_eq c w :
  setContent c w =
  let slot := _content (this w) in
  match c with
  | CNothing => bind (createTextNode "") (appendChild slot)
  | CString s => bind (createTextNode s) (appendChild slot)
  | CNode n =>
      bind (gets (λ w, bool_decide (n < length (nodes w))))
           (λ known : bool, if known then appendChild slot n else throw TypeError)
  | COther => throw TypeError
  end (clear_innerHTML slot w).2.
Proof. destruct c; reflexivity. Qed.

Lemma setContent_string s w :
  slot_ok w →
  let r := setContent (CString s) w in
  r.1 = Ok tt ∧ slot_ok r.2 ∧ slot_is_text s r.2.
Proof.
  intros Hok.
  destruct (clear_innerHTML_slot w Hok) as (Hok1 & Hempty & Hthis).
  cbv zeta. rewrite setContent_eq. cbv zeta.
  set (w1 := (clear_innerHTML (_content (this w)) w).2) in *.
  clearbody w1. rewrite <- Hthis in *.
  destruct (append_new_text s w1 Hok1 Hempty) as (H1 & H2 & H3 & _).
  split; [exact H1|]. split; [exact H2 | exact H3].
Qed.

(** Whatever is assigned, and whether or not the assignment throws, the slot
    stays an existing node of a closed store. *)
Lemma setContent_slot_ok c w : slot_ok w → slot_ok (setContent c w).2.
Proof.
  intros Hok.
  destruct (clear_innerHTML_slot w Hok) as (Hok1 & Hempty & Hthis).
  cbv zeta. rewrite setContent_eq. cbv zeta.
  set (w1 := (clear_innerHTML (_content (this w)) w).2) in *.
  clearbody w1. rewrite <- Hthis in *.
  destruct c as [|s|n|].
  - apply (append_new_text "" w1 Hok1 Hempty).
  - apply (append_new_text s w1 Hok1 Hempty).
  - unfold bind, gets, appendChild, throw. simpl.
    destruct (bool_decide (n < length (nodes w1))); [|exact Hok1].
    destruct (inclusive_ancestor _ _ _ _); [exact Hok1|].
    destruct Hok1 as [Hslot Hclosed]. split; simpl.
    + by rewrite length_attach_last.
    + by apply closed_attach_last.
  - exact Hok1.
Qed.

End content.

(** ** The constructor *)

Section constructor.

Implicit Types (w : world) (L : list node).

Lemma alter_at_end {A} (f : A → A) (l1 : list A) x l2 :
  alter f (length l1) (l1 ++ x :: l2) = l1 ++ f x :: l2.
Proof. induction l1 as [|y l1 IH]; simpl; [reflexivity|]. f_equal. exact IH. Qed.

Lemma parent_of_at_end l1 x l2 : parent_of (l1 ++ x :: l2) (length l1) = parentNode x.
Proof. unfold parent_of. by rewrite list_lookup_middle. Qed.

Lemma class_of_at_end l1 x l2 : class_of (l1 ++ x :: l2) (length l1) = className x.
Proof. unfold class_of. by rewrite list_lookup_middle. Qed.

Lemma lookup_second {A} (l : list A) x y rest :
  (l ++ x :: y :: rest) !! (length l + 1) = Some y.
Proof.
  rewrite lookup_app_r by lia.
  by replace (length l + 1 - length l) with 1 by lia.
Qed.

Lemma world_nodes_eta w : w = set_nodes (λ _, nodes w) w.
Proof. by destruct w. Qed.

(** One step of a computation, on a page whose node store is spelled out. *)

Lemma step_createElement {B} (k : nat → M B) L w :
  bind createElement k (set_nodes (λ _, L) w) =
  k (length L) (set_nodes (λ _, L ++ [Node Element "" None []]) w).
Proof. reflexivity. Qed.

Lemma step_set_className {B} n c (k : unit → M B) L w :
  bind (set_className n c) k (set_nodes (λ _, L) w) =
  k tt (set_nodes (λ _, alter (with_className c) n L) w).
Proof. reflexivity. Qed.

Lemma step_gets {A B} (f : world → A) (k : A → M B) w : bind (gets f) k w = k (f w) w.
Proof. reflexivity. Qed.

Lemma step_ret {A B} (a : A) (k : A → M B) w : bind (ret a) k w = k a w.
Proof. reflexivity. Qed.

Lemma bind_assoc {A B C} (m : M A) (k : A → M B) (h : B → M C) w :
  bind (bind m k) h w = bind m (λ a, bind (k a) h) w.
Proof. unfold bind. destruct (m w) as [[a|e] w']; reflexivity. Qed.

(** Appending a node that was just created, and has no parent yet, below a
    root [P] among the nodes created before it. *)
Lemma step_appendChild_new {B} (k : unit → M B) pre P rest C w :
  parentNode P = None → parentNode C = None →
  bind (appendChild (length pre) (length (pre ++ P :: rest)))
       k (set_nodes (λ _, (pre ++ P :: rest) ++ [C]) w) =
  k tt (set_nodes
          (λ _, (pre ++ with_childNodes (λ l, l ++ [length (pre ++ P :: rest)]) P :: rest)
                ++ [with_parentNode (Some (length pre)) C]) w).
Proof.
  intros HP HC. unfold bind, appendChild. cbn [nodes set_nodes].
  rewrite not_ancestor_of_root.
  - f_equal. unfold set_nodes. cbn [nodes]. f_equal.
    unfold attach_last, detach.
    rewrite parent_of_at_end, HC, alter_at_end.
    rewrite <- !app_assoc. simpl. by rewrite alter_at_end.
  - rewrite length_app. simpl. lia.
  - rewrite <- app_assoc. simpl. by rewrite parent_of_at_end.
Qed.

(** [buildOut] appends the overlay, the dialog, the content slot and, when
    [avoidClose] is truthy, the close button to the node store. *)
Lemma buildOut_eq w :
  let o := length (nodes w) in
  let avoid := ToBoolean (get_prop (_settings (this w)) "avoidClose") in
  let dialog_cls :=
    "pl-modal" +:+ " " +:+ ToString (get_prop (_settings (this w)) "className") in
  buildOut w =
  (Ok tt,
   set_this (with_nodes_fields o (o + 1) (o + 2) (if avoid then Some (o + 3) else None))
     (set_nodes
        (λ ns, ns ++
           [Node Element "pl-modal-overlay" None [];
            Node Element dialog_cls None (if avoid then [o + 2; o + 3] else [o + 2]);
            Node Element "pl-modal-content" (Some (o + 1)) []] ++
           (if avoid
            then [Node Element "pl-modal-close-button" (Some (o + 1)) []]
            else [])) w)).
Proof.
  intros o avoid dialog_cls. unfold buildOut.
  rewrite (world_nodes_eta w) at 1.
  rewrite step_createElement. cbv beta.
  rewrite step_set_className, alter_at_end. cbv beta.
  rewrite step_createElement. cbv beta.
  rewrite step_gets. cbv beta. cbn [nodes set_nodes this _settings].
  rewrite step_set_className, alter_at_end. cbv beta.
  rewrite step_createElement. cbv beta.
  rewrite step_set_className, alter_at_end. cbv beta.
  unfold with_className. cbn [kind className parentNode childNodes].
  fold o dialog_cls avoid.
  rewrite step_appendChild_new by reflexivity. cbv beta.
  unfold with_childNodes, with_parentNode. cbn [kind className parentNode childNodes].
  destruct avoid.
  - rewrite bind_assoc, step_createElement. cbv beta.
    rewrite bind_assoc, step_set_className, alter_at_end. cbv beta.
    unfold with_className. cbn [kind className parentNode childNodes].
    rewrite <- (app_assoc (nodes w ++ _) [_] [_]).
    change ([?x] ++ [?y]) with [x; y].
    rewrite bind_assoc.
    rewrite step_appendChild_new by reflexivity. cbv beta.
    unfold with_childNodes, with_parentNode. cbn [kind className parentNode childNodes].
    rewrite step_ret. unfold modify.
    rewrite !length_app. cbn [length]. fold o.
    rewrite <- !app_assoc. simpl.
    replace (o + 1 + 1) with (o + 2) by lia.
    replace (o + 1 + 2) with (o + 3) by lia.
    reflexivity.
  - rewrite step_ret. unfold modify.
    rewrite !length_app. cbn [length]. fold o.
    rewrite <- !app_assoc. simpl.
    replace (o + 1 + 1) with (o + 2) by lia.
    reflexivity.
Qed.

(** The page right after [new pl.Modal(settings)]. *)
Lemma new_Modal_eq style a pg :
  let settings := extendsDefaults defaults (settings_or_empty a) in
  let transitionend := transitionSelect style in
  let o := length (page_nodes pg) in
  let avoid := ToBoolean (get_prop settings "avoidClose") in
  let dialog_cls := "pl-modal" +:+ " " +:+ ToString (get_prop settings "className") in
  new_Modal style a pg =
  World (page_nodes pg ++
           [Node Element "pl-modal-overlay" None [];
            Node Element dialog_cls None (if avoid then [o + 2; o + 3] else [o + 2]);
            Node Element "pl-modal-content" (Some (o + 1)) []] ++
           (if avoid
            then [Node Element "pl-modal-close-button" (Some (o + 1)) []]
            else []))
        (page_body pg) avoid avoid {[ ToString transitionend ]} [] 0 [] []
        (MkModal o (o + 1) (o + 2) (if avoid then Some (o + 3) else None)
                 false None None settings transitionend).
Proof.
  intros settings transitionend o avoid dialog_cls. unfold new_Modal.
  fold settings transitionend.
  unfold bind at 1. rewrite buildOut_eq.
  cbn [nodes this _settings fresh_instance]. fold o avoid dialog_cls.
  unfold initializeEvents.
  rewrite step_gets.
  cbn [set_this set_nodes this nodes body keydown_listener click_listener
       modal_listeners timers now channels fired with_nodes_fields
       _settings fresh_instance _isOpen _modalClose _modalOpen _transitionend].
  fold avoid. destruct avoid.
  - unfold bind, gets, addEventListener_modal, modify,
      set_keydown_listener, set_click_listener, set_modal_listeners.
    cbn [set_this set_nodes this nodes body keydown_listener click_listener
         modal_listeners timers now channels fired with_nodes_fields
         _closeButton _transitionend fresh_instance fst snd].
    by rewrite (right_id_L ∅ (∪)).
  - unfold bind, gets, addEventListener_modal, modify, ret,
      set_keydown_listener, set_click_listener, set_modal_listeners.
    cbn [set_this set_nodes this nodes body keydown_listener click_listener
         modal_listeners timers now channels fired with_nodes_fields
         _closeButton _transitionend fresh_instance fst snd].
    by rewrite (right_id_L ∅ (∪)).
Qed.

End constructor.

(** ** Constructed pages are well formed *)

Section wellformed.

Implicit Types (w : world).

Lemma closed_app ns l :
  store_closed ns →
  Forall (λ x, ∀ p, parentNode x = Some p → p < length ns + length l) l →
  store_closed (ns ++ l).
Proof.
  intros Hns Hl n p. unfold parent_of. rewrite length_app.
  destruct (decide (n < length ns)) as [Hn|Hn].
  - rewrite lookup_app_l by done. intros H. apply (Hns n) in H. lia.
  - rewrite lookup_app_r by lia.
    destruct (l !! (n - length ns)) as [x|] eqn:Hx; [|discriminate]. simpl.
    rewrite Forall_lookup in Hl. apply (Hl _ _ Hx).
Qed.

(** A closed store can be recognised by evaluation. *)
Lemma store_closed_check ns :
  forallb (λ x, match parentNode x with
                | Some p => bool_decide (p < length ns)
                | None => true
                end) ns = true →
  store_closed ns.
Proof.
  intros Hcheck n p. unfold parent_of.
  destruct (ns !! n) as [x|] eqn:Hx; [|discriminate]. simpl. intros Hp.
  rewrite forallb_forall in Hcheck.
  assert (In x ns) as Hin by (apply list_elem_of_In; by eapply list_elem_of_lookup_2).
  apply Hcheck in Hin. rewrite Hp in Hin. by apply bool_decide_eq_true in Hin.
Qed.

Lemma new_Modal_frame_ok style a pg : page_ok pg → frame_ok (new_Modal style a pg).
Proof.
  intros (Hbody & Hclosed & Hroot). rewrite new_Modal_eq. cbv zeta.
  set (avoid := ToBoolean _). set (cls := _ +:+ _). clearbody avoid cls.
  split; cbn [nodes body this _overlay _modal]; rewrite ?length_app;
    cbn [length]; try lia.
  unfold parent_of. rewrite lookup_app_l by done. exact Hroot.
Qed.

Lemma new_Modal_slot_ok style a pg : page_ok pg → slot_ok (new_Modal style a pg).
Proof.
  intros (Hbody & Hclosed & Hroot). rewrite new_Modal_eq. cbv zeta.
  set (avoid := ToBoolean _). set (cls := _ +:+ _). clearbody avoid cls.
  split; cbn [nodes this _content].
  - rewrite !length_app. cbn [length]. lia.
  - apply closed_app; [exact Hclosed|].
    destruct avoid; cbn [app length]; repeat constructor;
      cbn [parentNode]; intros p; try discriminate; intros [= <-]; lia.
Qed.

End wellformed.

(** ** The page refines the handshake machine *)

Section refinement.

Implicit Types (w : world) (e : event).

(** Changing anything but the nodes, [document.body] and the element fields
    keeps the frame. *)
Lemma frame_ok_same w w' :
  nodes w' = nodes w → body w' = body w →
  _overlay (this w') = _overlay (this w) → _modal (this w') = _modal (this w) →
  frame_ok w → frame_ok w'.
Proof.
  intros Hn Hb Ho Hm [].
  split; rewrite ?Hn, ?Hb, ?Ho, ?Hm; assumption.
Qed.

Lemma frame_ok_detach c w :
  frame_ok w → frame_ok (set_nodes (detach c) w).
Proof.
  intros Hok. apply frame_ok_set_nodes; [exact Hok | apply length_detach |].
  rewrite parent_of_detach. case_decide; [reflexivity | apply Hok].
Qed.

(** Both sides of the comparison are towers of field updates; evaluating them
    from the inside keeps the terms small. *)
Ltac handshake_fields w :=
  destruct w as [? ? ? ? ? ? ? ? ? []];
  cbv [handshake_of isOpen overlay_class dialog_class overlay_parent
       dialog_parent h_set_isOpen h_set_classes h_set_overlay_parent
       h_set_dialog_parent h_set_listeners h_set_timers h_set_now
       h_set_channels h_set_fired h_set_modalOpen h_set_modalClose
       h_notification notification
       nodes body keydown_listener click_listener modal_listeners timers now
       channels fired this
       _overlay _modal _content _closeButton _isOpen _modalClose _modalOpen
       _settings _transitionend
       set_nodes set_keydown_listener set_click_listener set_modal_listeners
       set_timers set_now set_channels set_fired set_this
       with_isOpen with_modalClose with_modalOpen with_nodes_fields
       h_isOpen h_overlay_class h_dialog_class h_overlay_parent h_dialog_parent
       h_body h_listeners h_timers h_now h_channels h_fired h_modalOpen
       h_modalClose h_transitionend fst snd] in *.

Lemma toggle_refines w :
  frame_ok w →
  (toggleTransitionend w).1 = (h_toggle (handshake_of w)).1 ∧
  handshake_of (toggleTransitionend w).2 = (h_toggle (handshake_of w)).2 ∧
  frame_ok (toggleTransitionend w).2.
Proof.
  intros Hok. rewrite toggleTransitionend_eq. cbv zeta.
  assert (Hne : _overlay (this w) ≠ _modal (this w)) by apply Hok.
  unfold h_toggle. cbn [h_isOpen handshake_of].
  destruct (isOpen w) eqn:Hopen.
  - match goal with |- context [removeFromDom ?x] => set (w2 := x) end.
    assert (frame_ok w2) as Hok2 by (by apply (frame_ok_same w)).
    cbn [h_overlay_parent h_dialog_parent handshake_of].
    destruct (overlay_parent w) as [po|] eqn:Ho.
    + destruct (dialog_parent w) as [pd|] eqn:Hd.
      * rewrite (removeFromDom_attached w2 po pd Hne Ho Hd).
        split; [reflexivity|]. split.
        -- clear Hok2. subst w2. clear Hok. handshake_fields w.
           rewrite !class_of_detach, !parent_of_detach.
           repeat case_decide; first [reflexivity | congruence].
        -- eapply frame_ok_same; [| | | | apply (frame_ok_detach (_modal (this w))),
                                         (frame_ok_detach (_overlay (this w))), Hok2];
             reflexivity.
      * rewrite (removeFromDom_dialog_detached w2 po Hne Ho Hd).
        split; [reflexivity|]. split.
        -- clear Hok2. subst w2. clear Hok. handshake_fields w.
           rewrite !class_of_detach, !parent_of_detach, Hd.
           repeat case_decide; first [reflexivity | congruence].
        -- apply (frame_ok_detach (_overlay (this w))), Hok2.
    + rewrite (removeFromDom_overlay_detached w2 Ho).
      split; [reflexivity|]. split; [|exact Hok2].
      clear Hok2. subst w2. clear Hok. handshake_fields w.
      rewrite Ho. reflexivity.
  - split; [reflexivity|]. split.
    + clear Hok. handshake_fields w. reflexivity.
    + by apply (frame_ok_same w).
Qed.

Lemma handshake_step e w :
  frame_ok w → handshake_event e = true →
  (step e w).1 = (hstep e (handshake_of w)).1 ∧
  handshake_of (step e w).2 = (hstep e (handshake_of w)).2 ∧
  frame_ok (step e w).2.
Proof.
  intros Hok He. destruct e; try discriminate He; clear He.
  - (* open *)
    change (step CallOpen w) with (open w). unfold hstep. cbn [h_isOpen handshake_of].
    destruct (isOpen w) eqn:Hopen.
    + rewrite (open_when_open _ Hopen). split; [reflexivity | split; [reflexivity | exact Hok]].
    + destruct (open_when_closed w Hok Hopen) as (f & -> & Hlen & Hpar & Hco & Hcd).
      split; [reflexivity|]. split.
      * assert (Hne : _overlay (this w) ≠ _modal (this w)) by apply Hok.
        clear Hok. handshake_fields w. rewrite Hco, Hcd, !Hpar.
        repeat case_decide; first [reflexivity | congruence].
      * apply frame_ok_set_nodes; [exact Hok | exact Hlen|].
        rewrite Hpar. rewrite !decide_False; [apply Hok | |];
          intros Heq; symmetry in Heq; revert Heq; apply Hok.
  - (* close *)
    change (step CallClose w) with (close w). unfold hstep. cbn [h_isOpen handshake_of].
    destruct (isOpen w) eqn:Hopen.
    + destruct (close_when_open w Hok Hopen) as (f & -> & Hlen & Hpar & Hco & Hcd).
      split; [reflexivity|]. split.
      * clear Hok. handshake_fields w. rewrite Hco, Hcd, !Hpar. reflexivity.
      * apply frame_ok_set_nodes; [exact Hok | exact Hlen|].
        rewrite Hpar. apply Hok.
    + rewrite (close_when_closed _ Hopen). split; [reflexivity | split; [reflexivity | exact Hok]].
  - (* modalOpen *)
    unfold step, hstep, modalOpen, bind, gets, modify, ret, new_PLEvent.
    cbn [h_modalOpen handshake_of].
    destruct (_modalOpen (this w)) eqn:Hc; cbn [fst snd].
    + split; [reflexivity | split; [reflexivity | exact Hok]].
    + split; [reflexivity|]. split.
      * clear Hok. handshake_fields w. reflexivity.
      * by apply (frame_ok_same w).
  - (* modalClose *)
    unfold step, hstep, modalClose, bind, gets, modify, ret, new_PLEvent.
    cbn [h_modalClose handshake_of].
    destruct (_modalClose (this w)) eqn:Hc; cbn [fst snd].
    + split; [reflexivity | split; [reflexivity | exact Hok]].
    + split; [reflexivity|]. split.
      * clear Hok. handshake_fields w. reflexivity.
      * by apply (frame_ok_same w).
  - (* a listener registers *)
    unfold step, hstep, modify. cbn [fst snd].
    split; [reflexivity|]. split; [|by apply (frame_ok_same w)].
    clear Hok. handshake_fields w. reflexivity.
  - (* a completion signal *)
    unfold hstep. cbn [h_listeners handshake_of].
    destruct (decide (type ∈ modal_listeners w)) as [Hin|Hout].
    + rewrite dispatch_listening, bool_decide_eq_true_2 by done.
      by apply toggle_refines.
    + rewrite dispatch_not_listening, bool_decide_eq_false_2 by done.
      split; [reflexivity | split; [reflexivity | exact Hok]].
  - (* time passes *)
    rewrite elapse_eq. unfold hstep. cbv zeta.
    split; [reflexivity|]. split; [|by apply (frame_ok_same w)].
    clear Hok. handshake_fields w. reflexivity.
Qed.

Lemma handshake_run es w :
  frame_ok w → forallb handshake_event es = true →
  outcomes es w = houtcomes es (handshake_of w) ∧
  handshake_of (run es w) = hrun es (handshake_of w) ∧
  frame_ok (run es w).
Proof.
  revert w. induction es as [|e es IH]; intros w Hok Hes.
  - split; [reflexivity | split; [reflexivity | exact Hok]].
  - simpl in Hes. apply andb_true_iff in Hes as [He Hes].
    destruct (handshake_step e w Hok He) as (H1 & H2 & H3).
    destruct (IH _ H3 Hes) as (IH1 & IH2 & IH3).
    rewrite run_cons. unfold hrun. simpl. fold (hrun es (hstep e (handshake_of w)).2).
    rewrite H1, IH1, IH2, H2. split; [reflexivity | split; [reflexivity | exact IH3]].
Qed.

End refinement.

(** ** Invariants of every page a constructed modal can reach *)

Section reachable.

Implicit Types (w : world) (e : event).

#[global] Instance same_timing_preorder : PreOrder same_timing.
Proof.
  split.
  - intros w. unfold same_timing. tauto.
  - intros w1 w2 w3 (?&?&?) (?&?&?). repeat split; congruence.
Qed.

Lemma step_same_timing e w :
  signal_or_wait e = false → same_timing w (step e w).2.
Proof.
  intros He. revert w. change (respects same_timing (step e)).
  destruct e; try discriminate He; unfold_methods;
    respects_steps ltac:(unfold same_timing; simpl; tauto).
Qed.

Lemma step_armed_or_waiting e w :
  armed_or_waiting w → armed_or_waiting (step e w).2.
Proof.
  intros Hinv. destruct (signal_or_wait e) eqn:He.
  - destruct e; try discriminate He; clear He.
    + (* a signal *)
      destruct (decide (type ∈ modal_listeners w)) as [Hin|Hout].
      * rewrite dispatch_listening by done.
        destruct Hinv as [Harmed|[Hl _]].
        -- destruct (toggle_when_armed w Harmed) as (v & w1 & -> & Hl1 & _ & _ & _ & Ht1).
           right. cbn [snd]. split; [exact Hl1|]. rewrite Ht1. case_decide; simpl; lia.
        -- rewrite Hl in Hin. by apply not_elem_of_empty in Hin.
      * by rewrite dispatch_not_listening.
    + (* waiting *)
      rewrite elapse_eq. unfold armed_or_waiting, armed. simpl.
      destruct Hinv as [[Hl Ht]|[Hl Ht]].
      * left. rewrite Hl, Ht. split; reflexivity.
      * rewrite Hl. destruct (timers w) as [|t [|t' ts]]; simpl in Ht; [| |lia].
        -- right. split; [reflexivity | simpl; lia].
        -- destruct (decide (t ≤ now w + ms)) as [Hdue|Hnot].
           ++ left. rewrite filter_cons_True by done.
              rewrite filter_cons_False by lia.
              split; [apply (right_id_L ∅ (∪)) | reflexivity].
           ++ right. rewrite filter_cons_False by done.
              rewrite filter_cons_True by lia.
              split; [reflexivity | simpl; lia].
  - destruct (step_same_timing e w He) as (Hl & Ht & Hte).
    unfold armed_or_waiting, armed in *. rewrite Hl, Ht, Hte. exact Hinv.
Qed.

Lemma run_armed_or_waiting es w :
  armed_or_waiting w → armed_or_waiting (run es w).
Proof.
  revert w. induction es as [|e es IH]; intros w Hinv; [exact Hinv|].
  rewrite run_cons. by apply IH, step_armed_or_waiting.
Qed.

(** On every page reached from a constructed modal, a processed completion
    signal finds the listener attached with no re-arm pending. *)
Lemma reachable_listening_armed style a pg es ty :
  ty ∈ modal_listeners (run es (new_Modal style a pg)) →
  armed (run es (new_Modal style a pg)).
Proof.
  intros Hin.
  assert (armed_or_waiting (new_Modal style a pg)) as Hinit.
  { left. rewrite new_Modal_eq. split; reflexivity. }
  destruct (run_armed_or_waiting es _ Hinit) as [Harmed|[Hl _]]; [exact Harmed|].
  rewrite Hl in Hin. by apply not_elem_of_empty in Hin.
Qed.

(** *** The store stays closed *)

Lemma closed_page_set_nodes f w :
  closed_page w →
  store_closed (f (nodes w)) →
  length (nodes w) ≤ length (f (nodes w)) →
  closed_page (set_nodes f w).
Proof.
  intros [Hc Hb Ho Hm Hct] Hc' Hlen. split; simpl; [exact Hc' | lia ..].
Qed.

Lemma closed_page_same w w' :
  nodes w' = nodes w → body w' = body w →
  _overlay (this w') = _overlay (this w) → _modal (this w') = _modal (this w) →
  _content (this w') = _content (this w) →
  closed_page w → closed_page w'.
Proof.
  intros Hn Hb Ho Hm Hct []. split; rewrite ?Hn, ?Hb, ?Ho, ?Hm, ?Hct; assumption.
Qed.

Lemma appendChild_closed_page p c w :
  p < length (nodes w) → closed_page w → closed_page (appendChild p c w).2.
Proof.
  intros Hp Hcp. unfold appendChild.
  destruct (inclusive_ancestor _ _ _ _); [exact Hcp|]. cbn [snd].
  apply closed_page_set_nodes; [exact Hcp | |].
  - apply closed_attach_last; [exact Hp | apply Hcp].
  - by rewrite length_attach_last.
Qed.

Lemma set_className_closed_page n c w :
  closed_page w → closed_page (set_className n c w).2.
Proof.
  intros Hcp. unfold set_className, modify. cbn [snd].
  apply closed_page_set_nodes; [exact Hcp | |].
  - apply closed_alter; [done | apply Hcp].
  - by rewrite length_alter.
Qed.

Lemma open_closed_page w : closed_page w → closed_page (open w).2.
Proof.
  intros Hcp. unfold open. rewrite step_gets.
  destruct (_isOpen (this w)); [exact Hcp|].
  rewrite !step_gets. unfold bind at 1.
  pose proof (appendChild_closed_page (body w) (_overlay (this w)) w
                ltac:(apply Hcp) Hcp) as H1.
  destruct (appendChild (body w) (_overlay (this w)) w) as [[[]|e1] w1] eqn:E1;
    [|exact H1].
  assert (same_static w w1) as Hs1.
  { unfold appendChild in E1. destruct (inclusive_ancestor _ _ _ _); simplify_eq;
      unfold same_static; simpl; tauto. }
  destruct Hs1 as (Hb1 & _ & _ & Ho1 & Hm1 & _).
  unfold bind at 1.
  pose proof (appendChild_closed_page (body w) (_modal (this w)) w1
                ltac:(rewrite <- Hb1; apply H1) H1) as H2.
  destruct (appendChild (body w) (_modal (this w)) w1) as [[[]|e2] w2] eqn:E2;
    [|exact H2].
  unfold get_className. rewrite step_gets. unfold bind at 1.
  pose proof (set_className_closed_page (_overlay (this w))
                (class_of (nodes w2) (_overlay (this w)) +:+ " modal-open") w2 H2) as H3.
  destruct (set_className _ _ w2) as [[[]|e3] w3] eqn:E3; [|exact H3].
  rewrite step_gets. by apply set_className_closed_page.
Qed.

Lemma close_closed_page w : closed_page w → closed_page (close w).2.
Proof.
  intros Hcp. unfold close. rewrite step_gets.
  destruct (negb _); [exact Hcp|].
  rewrite !step_gets. unfold get_className. rewrite step_gets.
  unfold bind at 1.
  pose proof (set_className_closed_page (_overlay (this w))
                (replace_modal_open (class_of (nodes w) (_overlay (this w)))) w Hcp) as H1.
  destruct (set_className _ _ w) as [[[]|e1] w1] eqn:E1; [|exact H1].
  rewrite step_gets. by apply set_className_closed_page.
Qed.

Lemma setContent_closed_page c w : closed_page w → closed_page (setContent c w).2.
Proof.
  intros Hcp. rewrite setContent_eq. cbv zeta.
  assert (closed_page (clear_innerHTML (_content (this w)) w).2) as Hcp1.
  { unfold clear_innerHTML, modify. cbn [snd].
    apply closed_page_set_nodes; [exact Hcp | |].
    - apply closed_alter; [done|]. apply closed_unparent, Hcp.
    - by rewrite length_alter, length_unparent. }
  assert (_content (this (clear_innerHTML (_content (this w)) w).2) = _content (this w))
    as Hct by reflexivity.
  set (w1 := (clear_innerHTML (_content (this w)) w).2) in *. clearbody w1.
  rewrite <- Hct.
  assert (∀ s, closed_page (bind (createTextNode s) (appendChild (_content (this w1))) w1).2)
    as Htext.
  { intros s. unfold bind, createTextNode.
    set (w2 := set_nodes (λ ns, ns ++ [Node (TextNode s) "" None []]) w1).
    assert (closed_page w2) as Hcp2.
    { apply closed_page_set_nodes; [exact Hcp1 | |].
      - apply closed_snoc; [done | apply Hcp1].
      - rewrite length_app. lia. }
    pose proof (appendChild_closed_page (_content (this w1)) (length (nodes w1)) w2
                  ltac:(apply Hcp2) Hcp2) as H.
    by destruct (appendChild _ _ w2) as [[[]|e] w3]. }
  destruct c as [|s|n|].
  - apply Htext.
  - apply Htext.
  - unfold bind, gets, throw.
    destruct (bool_decide _); [|exact Hcp1].
    apply appendChild_closed_page; [apply Hcp1 | exact Hcp1].
  - exact Hcp1.
Qed.

Lemma step_closed_page e w : closed_page w → closed_page (step e w).2.
Proof.
  intros Hcp. destruct e.
  - by apply open_closed_page.
  - by apply close_closed_page.
  - by apply setContent_closed_page.
  - (* modalOpen *)
    unfold step, modalOpen, bind, gets, modify, ret, new_PLEvent.
    destruct (_modalOpen (this w)); cbn [fst snd]; [exact Hcp|].
    by apply (closed_page_same w).
  - (* modalClose *)
    unfold step, modalClose, bind, gets, modify, ret, new_PLEvent.
    destruct (_modalClose (this w)); cbn [fst snd]; [exact Hcp|].
    by apply (closed_page_same w).
  - unfold step, modify. cbn [snd]. by apply (closed_page_same w).
  - (* a signal *)
    destruct (decide (type ∈ modal_listeners w)) as [Hin|Hout];
      [|by rewrite dispatch_not_listening].
    rewrite dispatch_listening, toggleTransitionend_eq by done. cbv zeta.
    destruct (isOpen w).
    + match goal with |- context [removeFromDom ?x] => set (w2 := x) end.
      assert (closed_page w2) as Hcp2 by (by apply (closed_page_same w)).
      clearbody w2.
      assert (closed_page (removeFromDom w2).2) as Hcp3.
      { unfold removeFromDom, bind, gets, parentNode_removeChild.
        destruct (parent_of (nodes w2) (_overlay (this w2))); cbn [fst snd]; [|exact Hcp2].
        assert (closed_page (set_nodes (detach (_overlay (this w2))) w2)) as Hd1.
        { apply closed_page_set_nodes; [exact Hcp2 | apply closed_detach, Hcp2 |].
          by rewrite length_detach. }
        destruct (parent_of _ (_modal (this _))); cbn [fst snd]; [|exact Hd1].
        apply closed_page_set_nodes; [exact Hd1 | apply closed_detach, Hd1 |].
        by rewrite length_detach. }
      destruct (removeFromDom w2) as [[[]|e] w3]; [|exact Hcp3].
      by apply (closed_page_same w3).
    + by apply (closed_page_same w).
  - (* a key press *)
    unfold step. rewrite step_gets. destruct (keydown_listener w); [|exact Hcp].
    unfold on_keydown. destruct (Nat.eqb _ _); [|exact Hcp].
    by apply close_closed_page.
  - (* a click on the close button *)
    unfold step. rewrite step_gets. destruct (click_listener w); [|exact Hcp].
    by apply close_closed_page.
  - (* waiting *)
    rewrite elapse_eq. by apply (closed_page_same w).
Qed.

Lemma new_Modal_closed_page style a pg : page_ok pg → closed_page (new_Modal style a pg).
Proof.
  intros Hpg.
  destruct (new_Modal_frame_ok style a pg Hpg) as [Hb Ho Hm _ _ _ _].
  destruct (new_Modal_slot_ok style a pg Hpg) as [Hct Hc].
  by split.
Qed.

(** Every page reached from a constructed modal satisfies the precondition
    of content assignment. *)
Lemma reachable_slot_ok style a pg es :
  page_ok pg → slot_ok (run es (new_Modal style a pg)).
Proof.
  intros Hpg.
  assert (closed_page (run es (new_Modal style a pg))) as [Hc _ _ _ Hct]; [|by split].
  generalize (new_Modal_closed_page style a pg Hpg).
  generalize (new_Modal style a pg). induction es as [|e es IH]; intros w Hcp; [exact Hcp|].
  rewrite run_cons. by apply IH, step_closed_page.
Qed.

(** *** The frame stays in place *)







End reachable.

(** ** The completion handshake *)

(** Closed facts about concrete pages are decided by evaluation. *)
Ltac by_evaluation :=
  repeat match goal with
  | |- _ ∧ _ => split
  | |- frame_ok _ => split
  | |- slot_ok _ => split
  | |- page_ok _ => split
  | |- store_closed _ => apply store_closed_check
  end;
  vm_compute; first [reflexivity | lia | discriminate | (intros; discriminate) | eauto].

(** C1, with the precondition the close path relies on.  On each processed
    transition-completion signal the direction is inferred from the prior
    [isOpen] flag.  If [isOpen] was true and both overlay and dialog
    currently have a parent node, the close channel is fired (when it
    exists), both elements are detached and [isOpen] becomes false.  If
    [isOpen] was false, the open channel is fired (when it exists), [isOpen]
    becomes true and the document is left as it was. *)
Theorem completion_signal_infers_direction (w : world) (ty : string) :
  frame_ok w →
  ty ∈ modal_listeners w →
  let r := step (Dispatch ty) w in
  (isOpen w = true → is_Some (overlay_parent w) → is_Some (dialog_parent w) →
   r.1 = Ok tt ∧
   fired r.2 = fired w ++ notification (_modalClose (this w)) w ∧
   overlay_parent r.2 = None ∧ dialog_parent r.2 = None ∧
   isOpen r.2 = false) ∧
  (isOpen w = false →
   r.1 = Ok tt ∧
   fired r.2 = fired w ++ notification (_modalOpen (this w)) w ∧
   isOpen r.2 = true ∧
   nodes r.2 = nodes w).
Proof.
  intros Hok Hty. cbv zeta. rewrite (dispatch_listening _ _ Hty), toggleTransitionend_eq.
  split.
  - intros Hopen [po Ho] [pd Hd]. rewrite Hopen. simpl.
    erewrite removeFromDom_attached; [| apply Hok | exact Ho | exact Hd].
    simpl. unfold overlay_parent, dialog_parent, isOpen. simpl.
    rewrite !parent_of_detach.
    rewrite (decide_False (P := _overlay (this w) = _modal (this w))) by apply Hok.
    rewrite !decide_True by reflexivity.
    repeat split.
  - intros Hclosed. rewrite Hclosed. simpl. repeat split.
Qed.

Lemma completion_signal_infers_direction_witness :
  isOpen (step (Dispatch "transitionend")
            (run [CallOpen; Dispatch "transitionend"; Elapse 50; CallClose] sample_modal)).2
  = false.
Proof.
  pose proof (completion_signal_infers_direction
                (run [CallOpen; Dispatch "transitionend"; Elapse 50; CallClose] sample_modal)
                "transitionend") as H.
  destruct H as [H _]; [by_evaluation | by_evaluation |].
  destruct H as (_ & _ & _ & _ & H); [by_evaluation | by_evaluation | by_evaluation |].
  exact H.
Defined.

(** Without that precondition C1 does not hold: when a signal is processed
    with [isOpen] true while the elements have no parent, the handler throws
    and [isOpen] stays true. *)
Lemma completion_signal_detached_counterexample :
  let w := run [Dispatch "transitionend"; Elapse 50] sample_modal in
  "transitionend" ∈ modal_listeners w ∧
  isOpen w = true ∧
  (step (Dispatch "transitionend") w).1 = Throw TypeError ∧
  isOpen (step (Dispatch "transitionend") w).2 = true.
Proof. by_evaluation. Qed.

(** ** Repeated calls of [open] *)





(** ** [close] *)




(** ** [removeFromDom] *)

(** C9. [removeFromDom] dereferences the parent of the overlay and of the
    dialog without a null check: it returns normally exactly when both
    elements have a parent node, as they do after a call of [open] on a
    closed modal; a completion signal processed while [isOpen] is true and
    one of the elements has no parent ends in a [TypeError], with [isOpen]
    still true. *)
Theorem removeFromDom_needs_parents (w : world) :
  frame_ok w →
  ((removeFromDom w).1 = Ok tt ↔
   is_Some (overlay_parent w) ∧ is_Some (dialog_parent w)) ∧
  (isOpen w = false →
   is_Some (overlay_parent (open w).2) ∧ is_Some (dialog_parent (open w).2) ∧
   (removeFromDom (open w).2).1 = Ok tt) ∧
  (∀ ty, ty ∈ modal_listeners w → isOpen w = true →
         overlay_parent w = None ∨ dialog_parent w = None →
         (step (Dispatch ty) w).1 = Throw TypeError ∧
         isOpen (step (Dispatch ty) w).2 = true).
Proof.
  intros Hok.
  assert (Hcases : ∀ w', _overlay (this w') ≠ _modal (this w') →
            ((removeFromDom w').1 = Ok tt ↔
             is_Some (overlay_parent w') ∧ is_Some (dialog_parent w'))).
  { intros w' Hne.
    destruct (overlay_parent w') as [po|] eqn:Ho.
    - destruct (dialog_parent w') as [pd|] eqn:Hd.
      + rewrite (removeFromDom_attached _ _ _ Hne Ho Hd). simpl. split; eauto.
      + rewrite (removeFromDom_dialog_detached _ _ Hne Ho Hd). simpl.
        split; [discriminate | intros [_ [? ?]]; discriminate].
    - rewrite (removeFromDom_overlay_detached _ Ho). simpl.
      split; [discriminate | intros [[? ?] _]; discriminate]. }
  split; [apply Hcases, Hok | split].
  - intros Hclosed.
    destruct (open_when_closed w Hok Hclosed) as (f & Heq & Hlen & Hpar & _).
    rewrite Heq. simpl.
    assert (is_Some (overlay_parent (set_nodes f w)) ∧
            is_Some (dialog_parent (set_nodes f w))) as Hboth.
    { unfold overlay_parent, dialog_parent. simpl. rewrite !Hpar.
      split; repeat case_decide; eauto; congruence. }
    split; [apply Hboth | split; [apply Hboth|]].
    apply Hcases; [apply Hok | exact Hboth].
  - intros ty Hty Hopen Hnone.
    rewrite (dispatch_listening _ _ Hty), toggleTransitionend_eq, Hopen. simpl.
    assert (Hne : _overlay (this w) ≠ _modal (this w)) by apply Hok.
    match goal with
    | |- context [removeFromDom ?x] =>
        set (w2 := x);
        assert (overlay_parent w2 = overlay_parent w) as Ho2 by reflexivity;
        assert (dialog_parent w2 = dialog_parent w) as Hd2 by reflexivity;
        assert (_overlay (this w2) ≠ _modal (this w2)) as Hne2 by exact Hne;
        assert (isOpen w2 = true) as Hopen2 by exact Hopen
    end.
    clearbody w2.
    destruct (overlay_parent w) as [po|] eqn:Ho.
    + destruct Hnone as [Hnone|Hnone]; [discriminate|]. rewrite Hnone in Hd2.
      rewrite (removeFromDom_dialog_detached _ _ Hne2 Ho2 Hd2). simpl.
      split; [reflexivity | exact Hopen2].
    + rewrite (removeFromDom_overlay_detached _ Ho2). simpl.
      split; [reflexivity | exact Hopen2].
Qed.

Lemma removeFromDom_needs_parents_witness :
  (step (Dispatch "transitionend")
        (run [Dispatch "transitionend"; Elapse 50] sample_modal)).1
  = Throw TypeError.
Proof.
  pose proof (removeFromDom_needs_parents
                (run [Dispatch "transitionend"; Elapse 50] sample_modal)) as H.
  destruct H as (_ & _ & H); [by_evaluation|].
  apply (H "transitionend"); [by_evaluation | by_evaluation |].
  left. by_evaluation.
Defined.

(** ** The 50 ms debounce *)

(** C3. When a completion signal is processed, the completion listener is
    detached at once, whether or not the handler then throws, and it is only
    re-attached by a timer set 50 ms ahead.  So of the completion signals of
    one transition that arrive in quick succession (less than 50 ms after the
    processed one) none is processed: the flag keeps the value the first
    signal gave it and the channel of that direction has fired exactly once.
    After 50 ms the listener is attached again. *)
Theorem completion_signal_debounced (w : world) (es : list event) :
  armed w →
  forallb signal_or_wait es = true →
  elapsed es < 50 →
  let ty := ToString (_transitionend (this w)) in
  let r := step (Dispatch ty) w in
  let w' := run es r.2 in
  modal_listeners r.2 = ∅ ∧
  fired r.2 = fired w ++ notification (channel_due w) w ∧
  modal_listeners w' = ∅ ∧
  isOpen w' = isOpen r.2 ∧
  fired w' = fired r.2 ∧
  nodes w' = nodes r.2 ∧
  (r.1 = Ok tt →
   timers r.2 = [now w + 50] ∧
   ∀ ms, 50 ≤ elapsed es + ms → modal_listeners (step (Elapse ms) w').2 = {[ ty ]}) ∧
  (r.1 ≠ Ok tt → timers w' = []).
Proof.
  intros [Hl Ht] Hes Hquick. cbv zeta.
  rewrite dispatch_listening by (rewrite Hl; by apply elem_of_singleton).
  pose proof (toggle_when_armed w (conj Hl Ht)) as Hr.
  destruct Hr as (v & w1 & -> & Hl1 & Hf1 & Hn1 & Hte1 & Ht1). cbn [fst snd].
  assert (∀ t, t ∈ timers w1 → now w1 + elapsed es < t) as Hearly.
  { intros t Hin. rewrite Ht1 in Hin. rewrite Hn1. destruct (decide (v = Ok tt)).
    - apply list_elem_of_singleton in Hin. lia.
    - by apply not_elem_of_nil in Hin. }
  rewrite (quiet_run es w1 Hl1 Hes Hearly).
  split; [exact Hl1|]. split; [exact Hf1|]. split; [exact Hl1|].
  split; [reflexivity|]. split; [reflexivity|]. split; [reflexivity|].
  split.
  - intros ->. rewrite decide_True in Ht1 by reflexivity.
    split; [exact Ht1|].
    intros ms Hms. rewrite elapse_eq. simpl.
    rewrite Ht1, Hl1, Hte1, Hn1.
    rewrite rearm_due; [apply (right_id_L ∅ (∪))|].
    rewrite filter_cons_True by lia. discriminate.
  - intros Hv. simpl. rewrite Ht1. by rewrite decide_False.
Qed.

Lemma completion_signal_debounced_witness :
  fired (run [Dispatch "transitionend"; Elapse 20; Dispatch "transitionend";
              Elapse 29; Dispatch "transitionend"]
             (step (Dispatch "transitionend")
                   (run [ReadModalOpen; CallOpen] sample_modal)).2)
  = [(0, [])].
Proof.
  pose proof (completion_signal_debounced
                (run [ReadModalOpen; CallOpen] sample_modal)
                [Dispatch "transitionend"; Elapse 20; Dispatch "transitionend";
                 Elapse 29; Dispatch "transitionend"]) as H.
  destruct H as (_ & H1 & _ & _ & H2 & _);
    [by_evaluation | by_evaluation | by_evaluation |].
  change (ToString (_transitionend (this (run [ReadModalOpen; CallOpen] sample_modal))))
    with "transitionend" in H1, H2.
  rewrite H2, H1. by_evaluation.
Defined.

(** ** The accessors *)

(** C8. [modalOpen] and [modalClose] are lazy and idempotent: the first read
    of each constructs a new channel, distinct from every channel that
    exists, and stores it; every later read of the same accessor, whatever
    happened to the page in between, returns that same channel and changes
    nothing. *)
Theorem accessors_lazy_idempotent (w : world) :
  (_modalClose (this w) = None →
   (modalClose w).1 = Ok (length (channels w)) ∧
   channels (modalClose w).2 = channels w ++ [PLEvent_new] ∧
   ∀ es, modalClose (run es (modalClose w).2) =
         (Ok (length (channels w)), run es (modalClose w).2)) ∧
  (_modalOpen (this w) = None →
   (modalOpen w).1 = Ok (length (channels w)) ∧
   channels (modalOpen w).2 = channels w ++ [PLEvent_new] ∧
   ∀ es, modalOpen (run es (modalOpen w).2) =
         (Ok (length (channels w)), run es (modalOpen w).2)).
Proof.
  split; intros Hnone.
  - assert (modalClose w =
            (Ok (length (channels w)),
             set_this (with_modalClose (Some (length (channels w))))
               (set_channels (λ cs, cs ++ [PLEvent_new]) w))) as ->.
    { unfold modalClose, bind, gets, modify, ret, new_PLEvent. simpl.
      by rewrite Hnone. }
    cbn [fst snd]. split; [reflexivity|]. split; [reflexivity|]. intros es.
    match goal with |- context [run es ?x] => set (w1 := x) end.
    destruct (run_channels_kept es w1) as (Hkept & _ & _).
    unfold modalClose, bind, gets. simpl.
    rewrite (Hkept (length (channels w))); reflexivity.
  - assert (modalOpen w =
            (Ok (length (channels w)),
             set_this (with_modalOpen (Some (length (channels w))))
               (set_channels (λ cs, cs ++ [PLEvent_new]) w))) as ->.
    { unfold modalOpen, bind, gets, modify, ret, new_PLEvent. simpl.
      by rewrite Hnone. }
    cbn [fst snd]. split; [reflexivity|]. split; [reflexivity|]. intros es.
    match goal with |- context [run es ?x] => set (w1 := x) end.
    destruct (run_channels_kept es w1) as (_ & Hkept & _).
    unfold modalOpen, bind, gets. simpl.
    rewrite (Hkept (length (channels w))); reflexivity.
Qed.

Lemma accessors_lazy_idempotent_witness :
  (modalClose sample_modal).1 = Ok 0 ∧
  (modalOpen (run [CallOpen; Dispatch "transitionend"] (modalOpen sample_modal).2)).1 = Ok 0.
Proof.
  split.
  - apply (proj1 (accessors_lazy_idempotent sample_modal)). by_evaluation.
  - destruct (proj2 (accessors_lazy_idempotent sample_modal)) as (_ & _ & H);
      [by_evaluation|].
    rewrite (H [CallOpen; Dispatch "transitionend"]). reflexivity.
Defined.

(** ** The settings merge and the constructor *)




(** ** [setContent] *)

(** C5. Whatever the content slot held before, [setContent] with a string
    leaves the slot with exactly one child, a text node whose data is that
    string; and [setContent] with an element followed by [setContent] with a
    string leaves the slot with the text node only. *)
Theorem setContent_replaces_content (w : world) (s : string) :
  slot_ok w →
  ((setContent (CString s) w).1 = Ok tt ∧
   slot_is_text s (setContent (CString s) w).2) ∧
  (∀ n, (setContent (CString s) (setContent (CNode n) w).2).1 = Ok tt ∧
        slot_is_text s (setContent (CString s) (setContent (CNode n) w).2).2).
Proof.
  intros Hok. split.
  - destruct (setContent_string s w Hok) as (H1 & _ & H2). by split.
  - intros n. pose proof (setContent_slot_ok (CNode n) w Hok) as Hok'.
    destruct (setContent_string s _ Hok') as (H1 & _ & H2). by split.
Qed.

Lemma setContent_replaces_content_witness :
  slot_is_text "hello" (setContent (CString "hello") sample_modal).2 ∧
  slot_is_text "hello"
    (setContent (CString "hello") (setContent (CNode 1) sample_modal).2).2.
Proof.
  destruct (setContent_replaces_content sample_modal "hello") as [[_ H1] H2];
    [by_evaluation|].
  split; [exact H1 | exact (proj2 (H2 1))].
Defined.

(** ** Construction with [avoidClose: false] *)

Lemma new_Modal_handshake style a pg :
  let settings := extendsDefaults defaults (settings_or_empty a) in
  handshake_of (new_Modal style a pg) =
  Handshake false "pl-modal-overlay"
            ("pl-modal" +:+ " " +:+ ToString (get_prop settings "className"))
            None None (page_body pg) {[ ToString (transitionSelect style) ]}
            [] 0 [] [] None None (transitionSelect style).
Proof.
  cbv zeta. rewrite new_Modal_eq. cbv zeta.
  unfold handshake_of, isOpen, overlay_class, dialog_class, overlay_parent, dialog_parent.
  cbn [nodes body this modal_listeners timers now channels fired
       _overlay _modal _isOpen _modalOpen _modalClose _transitionend].
  set (avoid := ToBoolean _). set (cls := _ +:+ _). clearbody avoid.
  cbn [app]. unfold class_of, parent_of.
  rewrite list_lookup_middle by reflexivity. rewrite lookup_second. reflexivity.
Qed.

Lemma merged_avoidClose (o : jsobject) (b : bool) :
  get_prop (extendsDefaults defaults (set_prop o "avoidClose" (VBool b))) "avoidClose"
  = VBool b.
Proof.
  unfold get_prop. rewrite extendsDefaults_own. simpl.
  erewrite lookup_union_Some_l; [reflexivity|]. apply lookup_insert_eq.
Qed.

Lemma merged_className (o : jsobject) (v : jsval) :
  get_prop (extendsDefaults defaults (set_prop o "avoidClose" v)) "className"
  = get_prop (extendsDefaults defaults o) "className".
Proof.
  unfold get_prop. rewrite !extendsDefaults_own, !extendsDefaults_inherited. simpl.
  rewrite !lookup_union, lookup_insert_ne by done. reflexivity.
Qed.

(** C6. A modal constructed with [{avoidClose: false}] has no close button
    (the dialog holds the content slot only) and registers neither the
    escape-key listener nor the click listener, so key presses and clicks on
    a close button have no effect at any later time; [close] can still be
    called, and on every run of the handshake it does to the flag, the class
    names, the attachment, the listeners, the timers and the channels exactly
    what it does for the modal constructed with [avoidClose: true]. *)
Theorem avoidClose_false_keeps_close (style : string → jsval) (o : jsobject)
    (pg : page) (es : list event) :
  page_ok pg →
  forallb handshake_event es = true →
  let wF := new_Modal style (ArgObject (set_prop o "avoidClose" (VBool false))) pg in
  let wT := new_Modal style (ArgObject (set_prop o "avoidClose" (VBool true))) pg in
  _closeButton (this wF) = None ∧
  children_of (nodes wF) (_modal (this wF)) = [_content (this wF)] ∧
  length (nodes wF) = length (page_nodes pg) + 3 ∧
  keydown_listener wF = false ∧
  click_listener wF = false ∧
  (∀ es' k, step (KeyDown k) (run es' wF) = (Ok tt, run es' wF)) ∧
  (∀ es', step ClickCloseButton (run es' wF) = (Ok tt, run es' wF)) ∧
  is_Some (_closeButton (this wT)) ∧
  outcomes (es ++ [CallClose]) wF = outcomes (es ++ [CallClose]) wT ∧
  handshake_of (run es wF) = handshake_of (run es wT) ∧
  handshake_of (run (es ++ [CallClose]) wF) = handshake_of (run (es ++ [CallClose]) wT).
Proof.
  intros Hpg Hes wF wT.
  assert (HF : _closeButton (this wF) = None ∧
               children_of (nodes wF) (_modal (this wF)) = [_content (this wF)] ∧
               length (nodes wF) = length (page_nodes pg) + 3 ∧
               keydown_listener wF = false ∧ click_listener wF = false).
  { unfold wF. rewrite new_Modal_eq. cbv zeta. simpl settings_or_empty.
    rewrite merged_avoidClose. cbn [ToBoolean].
    cbn [nodes this keydown_listener click_listener _closeButton _modal _content].
    split; [reflexivity|]. split; [|split; [|split; reflexivity]].
    - cbn [app]. unfold children_of. rewrite lookup_second. reflexivity.
    - rewrite !length_app. reflexivity. }
  destruct HF as (Hbutton & Hchildren & Hlen & Hkey & Hclick).
  assert (HT : is_Some (_closeButton (this wT))).
  { unfold wT. rewrite new_Modal_eq. cbv zeta. simpl settings_or_empty.
    rewrite merged_avoidClose. cbn [ToBoolean this _closeButton]. eauto. }
  assert (Hsame : handshake_of wF = handshake_of wT).
  { unfold wF, wT. rewrite !new_Modal_handshake. cbv zeta. simpl settings_or_empty.
    by rewrite !merged_className. }
  assert (Hes' : forallb handshake_event (es ++ [CallClose]) = true).
  { rewrite forallb_app, Hes. reflexivity. }
  destruct (handshake_run es wF (new_Modal_frame_ok _ _ _ Hpg) Hes) as (_ & HrF & _).
  destruct (handshake_run es wT (new_Modal_frame_ok _ _ _ Hpg) Hes) as (_ & HrT & _).
  destruct (handshake_run _ wF (new_Modal_frame_ok _ _ _ Hpg) Hes') as (HoF' & HrF' & _).
  destruct (handshake_run _ wT (new_Modal_frame_ok _ _ _ Hpg) Hes') as (HoT' & HrT' & _).
  repeat split; try assumption.
  - intros es' k. destruct (run_same_static es' wF) as (_ & Hk & _).
    unfold step, bind, gets. rewrite Hk, Hkey. reflexivity.
  - intros es'. destruct (run_same_static es' wF) as (_ & _ & Hc & _).
    unfold step, bind, gets. rewrite Hc, Hclick. reflexivity.
  - rewrite HoF', HoT', Hsame. reflexivity.
  - rewrite HrF, HrT, Hsame. reflexivity.
  - rewrite HrF', HrT', Hsame. reflexivity.
Qed.

Lemma avoidClose_false_keeps_close_witness :
  handshake_of
    (run ([CallOpen; Dispatch "transitionend"; Elapse 50] ++ [CallClose])
         (new_Modal standard_style
            (ArgObject (set_prop empty_object "avoidClose" (VBool false))) blank_page))
  = handshake_of
    (run ([CallOpen; Dispatch "transitionend"; Elapse 50] ++ [CallClose])
         (new_Modal standard_style
            (ArgObject (set_prop empty_object "avoidClose" (VBool true))) blank_page)).
Proof.
  destruct (avoidClose_false_keeps_close standard_style empty_object blank_page
              [CallOpen; Dispatch "transitionend"; Elapse 50])
    as (_ & _ & _ & _ & _ & _ & _ & _ & _ & _ & H); [by_evaluation | by_evaluation |].
  exact H.
Defined.
(** * Further properties of the code *)

(** ** The flag, the completion signal and the listener *)

Section signal.

Implicit Types (w : world) (e : event).

#[global] Instance flag_kept_preorder : PreOrder flag_kept.
Proof.
  split.
  - intros w. split; reflexivity.
  - intros w1 w2 w3 [? ?] [? ?]. split; congruence.
Qed.

#[global] Instance same_clock_preorder : PreOrder same_clock.
Proof.
  split.
  - intros w. reflexivity.
  - intros w1 w2 w3 ? ?. unfold same_clock in *. congruence.
Qed.

(** Everything but a completion signal leaves the flag and the record of
    firings alone. *)
Lemma call_flag_kept e : (∀ ty, e ≠ Dispatch ty) → respects flag_kept (step e).
Proof.
  intros He. destruct e; try (exfalso; exact (He type eq_refl)); unfold_methods;
    respects_steps ltac:(unfold flag_kept; simpl; tauto).
Qed.

Lemma step_flag_kept e w :
  (∀ ty, e = Dispatch ty → ty ∉ modal_listeners w) → flag_kept w (step e w).2.
Proof.
  intros Hd. destruct (signal_or_wait e) eqn:He.
  - destruct e; try discriminate He.
    + rewrite dispatch_not_listening by (by apply Hd). reflexivity.
    + apply call_flag_kept. discriminate.
  - apply call_flag_kept. intros ty ->. discriminate He.
Qed.

Lemma step_transitionend e w :
  _transitionend (this (step e w).2) = _transitionend (this w).
Proof. apply (step_same_static e w). Qed.

Lemma run_flag_kept es w :
  armed_or_waiting w →
  Dispatch (ToString (_transitionend (this w))) ∉ es →
  flag_kept w (run es w).
Proof.
  revert w. induction es as [|e es IH]; intros w Hinv Hes; [reflexivity|].
  rewrite run_cons. apply not_elem_of_cons in Hes as [He Hes].
  transitivity (step e w).2.
  - apply step_flag_kept. intros ty -> Hin. apply He. f_equal.
    destruct Hinv as [[Hl _]|[Hl _]]; rewrite Hl in Hin.
    + by apply elem_of_singleton in Hin.
    + by apply not_elem_of_empty in Hin.
  - apply IH; [by apply step_armed_or_waiting|].
    by rewrite step_transitionend.
Qed.

(** Everything but waiting leaves the clock alone. *)
Lemma step_same_clock e w :
  (∀ ms, e ≠ Elapse ms) → same_clock w (step e w).2.
Proof.
  intros He. revert w. change (respects same_clock (step e)).
  destruct e; try (exfalso; exact (He ms eq_refl)); unfold_methods;
    respects_steps ltac:(unfold same_clock; simpl; tauto).
Qed.

(** A completion handler that throws was on its close path, and leaves the
    flag set. *)
Lemma toggle_throw w :
  (toggleTransitionend w).1 ≠ Ok tt →
  isOpen w = true ∧ isOpen (toggleTransitionend w).2 = true.
Proof.
  rewrite toggleTransitionend_eq. cbv zeta. destruct (isOpen w) eqn:Hopen.
  - match goal with
    | |- context [removeFromDom ?x] =>
        destruct (removeFromDom_nodes_only x) as [f Hf];
        destruct (removeFromDom x) as [[[]|e] w3]
    end; simpl in Hf; subst w3; simpl; [congruence|].
    intros _. split; [reflexivity | exact Hopen].
  - simpl. congruence.
Qed.

Lemma step_deaf e w : deaf w → deaf (step e w).2.
Proof.
  intros [Hl Ht]. destruct (signal_or_wait e) eqn:He.
  - destruct e; try discriminate He.
    + rewrite dispatch_not_listening by (rewrite Hl; apply not_elem_of_empty).
      by split.
    + rewrite elapse_early.
      * by split.
      * intros t. rewrite Ht. intros Hin. by apply elem_of_nil in Hin.
  - destruct (step_same_timing e w He) as (Hl' & Ht' & _). split; congruence.
Qed.

Lemma run_deaf es w : deaf w → deaf (run es w).
Proof.
  revert w. induction es as [|e es IH]; intros w Hinv; [exact Hinv|].
  rewrite run_cons. by apply IH, step_deaf.
Qed.

Lemma deaf_waiting w : deaf w → armed_or_waiting w.
Proof. intros [Hl Ht]. right. rewrite Ht. split; [exact Hl | simpl; lia]. Qed.

Lemma step_listener_state e w : listener_state w → listener_state (step e w).2.
Proof.
  intros Hinv. destruct (signal_or_wait e) eqn:He.
  - destruct e; try discriminate He; clear He.
    + (* a signal *)
      destruct (decide (type ∈ modal_listeners w)) as [Hin|Hout];
        [|by rewrite dispatch_not_listening].
      rewrite dispatch_listening by done.
      destruct Hinv as [Harmed|[[Hl _]|[Hl _]]];
        [| rewrite Hl in Hin; by apply not_elem_of_empty in Hin ..].
      destruct (toggle_when_armed w Harmed) as (v & w1 & -> & Hl1 & _ & Hn1 & _ & Ht1).
      cbn [snd]. right. case_decide.
      * right. split; [exact Hl1|]. exists (now w + 50). rewrite Hn1. by split.
      * left. by split.
    + (* waiting *)
      destruct Hinv as [[Hl Ht]|[Hdeaf|(Hl & t & Ht & Hdue)]].
      * left. rewrite elapse_eq. unfold armed. simpl. rewrite Hl, Ht. by split.
      * right. left. by apply step_deaf.
      * rewrite elapse_eq. unfold listener_state, armed, deaf, rearm_pending. simpl.
        rewrite Hl, Ht. destruct (decide (t ≤ now w + ms)) as [Hd|Hd].
        -- left. rewrite filter_cons_True by done.
           rewrite filter_cons_False by lia.
           split; [apply (right_id_L ∅ (∪)) | reflexivity].
        -- right. right. rewrite filter_cons_False by done.
           rewrite filter_cons_True by lia.
           split; [reflexivity|]. exists t. split; [reflexivity | lia].
  - destruct (step_same_timing e w He) as (Hl & Ht & Hte).
    assert (now (step e w).2 = now w) as Hn.
    { apply step_same_clock. intros ms ->. discriminate He. }
    unfold listener_state, armed, deaf, rearm_pending in *.
    rewrite Hl, Ht, Hte, Hn. exact Hinv.
Qed.

Lemma run_listener_state es w : listener_state w → listener_state (run es w).
Proof.
  revert w. induction es as [|e es IH]; intros w Hinv; [exact Hinv|].
  rewrite run_cons. by apply IH, step_listener_state.
Qed.

Lemma new_Modal_armed style a pg : armed (new_Modal style a pg).
Proof. rewrite new_Modal_eq. split; reflexivity. Qed.

Lemma run_transitionend es w :
  _transitionend (this (run es w)) = _transitionend (this w).
Proof. apply (run_same_static es w). Qed.

Lemma new_Modal_transitionend style a pg :
  _transitionend (this (new_Modal style a pg)) = transitionSelect style.
Proof. by rewrite new_Modal_eq. Qed.

(** X1.  Only a processed completion signal changes [isOpen] or fires a
    channel.  Whatever else happens to a page whose completion listener is
    attached or waiting for its re-arm timer (calls of [open], [close] and
    [setContent], reads of the accessors, listeners registering, key presses,
    clicks on the close button, time passing, events of other types reaching
    the dialog), [isOpen] keeps its value and nothing is added to the record
    of firings, as long as no event of the probed type reaches the dialog. *)
Theorem flag_changes_only_on_signal (es : list event) (w : world) :
  armed_or_waiting w →
  Dispatch (ToString (_transitionend (this w))) ∉ es →
  isOpen (run es w) = isOpen w ∧ fired (run es w) = fired w.
Proof. intros Hinv Hes. exact (run_flag_kept es w Hinv Hes). Qed.

Lemma flag_changes_only_on_signal_witness :
  isOpen (run [CallOpen; KeyDown 27; Dispatch "click"; Elapse 100; CallClose] sample_modal)
  = false.
Proof.
  pose proof (flag_changes_only_on_signal
                [CallOpen; KeyDown 27; Dispatch "click"; Elapse 100; CallClose]
                sample_modal) as H.
  destruct H as [H _].
  - by_evaluation.
  - repeat (apply not_elem_of_cons; split; [discriminate|]). apply not_elem_of_nil.
  - exact H.
Defined.

(** X2.  In a browser where none of the four probed style properties is
    defined, the constructor registers the completion listener for the event
    type ["undefined"].  Unless an event of that type reaches the dialog, the
    modal never counts as open and no channel ever fires, whatever is called;
    and [close] does nothing at any time, so what [open] attached and styled
    stays as it is. *)
Theorem unsupported_browser_never_opens
    (style : string → jsval) (a : settings_arg) (pg : page) (es : list event) :
  transitionSelect style = VUndefined →
  Dispatch "undefined" ∉ es →
  modal_listeners (new_Modal style a pg) = {[ "undefined" ]} ∧
  let w := run es (new_Modal style a pg) in
  isOpen w = false ∧ fired w = [] ∧ close w = (Ok tt, w).
Proof.
  intros Hte Hes.
  split; [rewrite new_Modal_eq; simpl; by rewrite Hte|].
  destruct (run_flag_kept es (new_Modal style a pg)) as [Hopen Hfired].
  - left. apply new_Modal_armed.
  - by rewrite new_Modal_transitionend, Hte.
  - assert (isOpen (run es (new_Modal style a pg)) = false) as Hclosed.
    { unfold isOpen. by rewrite Hopen, new_Modal_eq. }
    cbv zeta. split; [exact Hclosed|]. split.
    + by rewrite Hfired, new_Modal_eq.
    + by apply close_when_closed.
Qed.

Lemma unsupported_browser_never_opens_witness :
  let w := run [CallOpen; Dispatch "transitionend"; Elapse 60; CallClose]
               (new_Modal (λ _, VUndefined) ArgUndefined blank_page) in
  isOpen w = false ∧ fired w = [] ∧ close w = (Ok tt, w).
Proof.
  apply (unsupported_browser_never_opens (λ _, VUndefined) ArgUndefined blank_page
           [CallOpen; Dispatch "transitionend"; Elapse 60; CallClose]).
  - reflexivity.
  - repeat (apply not_elem_of_cons; split; [discriminate|]). apply not_elem_of_nil.
Defined.

(** X3.  The completion listener of a constructed modal is always in one of
    three states: attached under the probed event type with no timer
    pending; detached with exactly one timer pending, due at most 50 ms from
    now; or detached with no timer at all.  So the listener is never
    registered under a second type, timers never pile up, and once 50 ms
    have passed a pending timer has re-attached the listener. *)
Theorem listener_attached_or_rearming
    (style : string → jsval) (a : settings_arg) (pg : page) (es : list event) :
  let w := run es (new_Modal style a pg) in
  ((modal_listeners w = {[ ToString (transitionSelect style) ]} ∧ timers w = []) ∨
   (modal_listeners w = ∅ ∧ timers w = []) ∨
   (modal_listeners w = ∅ ∧ ∃ t, timers w = [t] ∧ t ≤ now w + 50)) ∧
  (∀ ms, 50 ≤ ms → timers w ≠ [] →
     let w' := (step (Elapse ms) w).2 in
     modal_listeners w' = {[ ToString (transitionSelect style) ]} ∧ timers w' = []).
Proof.
  cbv zeta.
  pose proof (run_listener_state es (new_Modal style a pg)
                (or_introl (new_Modal_armed style a pg))) as Hinv.
  pose proof (run_transitionend es (new_Modal style a pg)) as Hte.
  rewrite new_Modal_transitionend in Hte.
  set (w := run es (new_Modal style a pg)) in *.
  unfold listener_state, armed, deaf, rearm_pending in Hinv. rewrite Hte in Hinv.
  split; [exact Hinv|].
  intros ms Hms Hpending.
  destruct Hinv as [[_ Ht]|[[_ Ht]|(Hl & t & Ht & Hdue)]]; [done | done |].
  rewrite elapse_eq. simpl. rewrite Hl, Ht, Hte.
  rewrite filter_cons_True by lia. rewrite filter_cons_False by lia.
  split; [apply (right_id_L ∅ (∪)) | reflexivity].
Qed.

Lemma listener_attached_or_rearming_witness :
  modal_listeners
    (step (Elapse 50) (run [CallOpen; Dispatch "transitionend"] sample_modal)).2
  = {[ "transitionend" ]}.
Proof.
  pose proof (listener_attached_or_rearming standard_style ArgUndefined blank_page
                [CallOpen; Dispatch "transitionend"]) as [_ H].
  destruct (H 50) as [H1 _]; [lia | by_evaluation | exact H1].
Defined.

(** X4.  A completion handler that throws leaves the modal deaf for good.
    The handler can only throw on its close path, after it has detached the
    listener and fired the close channel, and before it has cleared [isOpen]
    or set the re-arm timer.  From then on no event re-attaches the
    listener, so [isOpen] stays true and no channel fires again. *)
Theorem failed_close_handler_is_final (w : world) (ty : string) (es : list event) :
  armed w →
  ty ∈ modal_listeners w →
  (step (Dispatch ty) w).1 ≠ Ok tt →
  let w1 := (step (Dispatch ty) w).2 in
  isOpen w = true ∧
  fired w1 = fired w ++ notification (_modalClose (this w)) w ∧
  modal_listeners (run es w1) = ∅ ∧
  timers (run es w1) = [] ∧
  isOpen (run es w1) = true ∧
  fired (run es w1) = fired w1.
Proof.
  intros Harmed Hin. cbv zeta. rewrite dispatch_listening by done. intros Hthrow.
  destruct (toggle_throw w Hthrow) as [Hopen Hopen1].
  destruct (toggle_when_armed w Harmed) as (v & w1 & Heq & Hl1 & Hf1 & _ & _ & Ht1).
  rewrite Heq in *. cbn [fst snd] in *. rewrite decide_False in Ht1 by done.
  unfold channel_due in Hf1. rewrite Hopen in Hf1.
  assert (deaf w1) as Hdeaf by (by split).
  destruct (run_deaf es w1 Hdeaf) as [Hl Ht].
  assert (flag_kept w1 (run es w1)) as [Hk1 Hk2].
  { clear Hl Ht Heq Hl1 Hf1 Ht1 Hopen1. revert w1 Hdeaf.
    induction es as [|e es IH]; intros w1 Hdeaf; [reflexivity|].
    rewrite run_cons. transitivity (step e w1).2.
    - apply step_flag_kept. intros ty' _. destruct Hdeaf as [-> _].
      apply not_elem_of_empty.
    - by apply IH, step_deaf. }
  unfold isOpen in *. rewrite Hk1, Hk2. by repeat split.
Qed.

Lemma failed_close_handler_is_final_witness :
  isOpen (run [Elapse 50; Dispatch "transitionend"; CallClose; Elapse 50;
               Dispatch "transitionend"]
              (step (Dispatch "transitionend")
                    (run [Dispatch "transitionend"; Elapse 50] sample_modal)).2)
  = true.
Proof.
  pose proof (failed_close_handler_is_final
                (run [Dispatch "transitionend"; Elapse 50] sample_modal)
                "transitionend"
                [Elapse 50; Dispatch "transitionend"; CallClose; Elapse 50;
                 Dispatch "transitionend"]) as H.
  destruct H as (_ & _ & _ & _ & H & _); [by_evaluation | by_evaluation | by_evaluation |].
  exact H.
Defined.

End signal.
(** ** What the modal builds and what it leaves alone *)

Section frame.

Implicit Types (w : world) (e : event).

#[global] Instance classes_kept_preorder : PreOrder classes_kept.
Proof.
  split.
  - intros w. split; [lia | done].
  - intros w1 w2 w3 [Hl1 Hc1] [Hl2 Hc2]. split; [lia|].
    intros n Hn. rewrite Hc2 by lia. by apply Hc1.
Qed.

#[global] Instance others_kept_preorder o m : PreOrder (others_kept o m).
Proof.
  split.
  - intros w. split; [lia | done].
  - intros w1 w2 w3 [Hl1 Hc1] [Hl2 Hc2]. split; [lia|].
    intros n Hn Ho Hm. rewrite Hc2 by (done || lia). by apply Hc1.
Qed.

Lemma classes_kept_others o m w w' : classes_kept w w' → others_kept o m w w'.
Proof. intros [Hl Hc]. split; [exact Hl|]. intros n Hn _ _. by apply Hc. Qed.

Lemma class_of_unparent (l : list nat) ns n :
  class_of (foldr (λ c, alter (with_parentNode None) c) ns l) n = class_of ns n.
Proof.
  induction l as [|c l IH]; simpl; [reflexivity|].
  by rewrite class_of_alter.
Qed.

Ltac classes_leaf :=
  unfold classes_kept; simpl; split;
  [ rewrite ?length_app, ?length_alter, ?length_attach_last, ?length_detach,
      ?length_unparent; simpl; lia
  | intros ? ?;
    rewrite ?class_of_attach_last, ?class_of_detach;
    rewrite ?class_of_snoc by done;
    rewrite ?class_of_alter by done;
    rewrite ?class_of_unparent; reflexivity ].

(** Apart from [open] and [close], and the key and click handlers that call
    [close], nothing assigns a class name. *)
Lemma step_classes_kept e :
  match e with
  | CallOpen | CallClose | KeyDown _ | ClickCloseButton => False
  | _ => True
  end →
  respects classes_kept (step e).
Proof.
  destruct e; intros []; unfold_methods; respects_steps classes_leaf.
Qed.

Lemma open_others_kept w :
  others_kept (_overlay (this w)) (_modal (this w)) w (open w).2.
Proof.
  unfold open, bind, gets, appendChild, get_className, set_className, modify.
  simpl. destruct (_isOpen (this w)); [reflexivity|].
  destruct (inclusive_ancestor _ _ _ _); [reflexivity|]. simpl.
  destruct (inclusive_ancestor _ _ _ _); simpl.
  - split; simpl; [by rewrite length_attach_last|].
    intros n _ _ _. apply class_of_attach_last.
  - split; simpl; [by rewrite !length_alter, !length_attach_last|].
    intros n _ Ho Hm. rewrite !class_of_set_ne by done.
    by rewrite !class_of_attach_last.
Qed.

Lemma close_others_kept w :
  others_kept (_overlay (this w)) (_modal (this w)) w (close w).2.
Proof.
  unfold close, bind, gets, get_className, set_className, modify.
  simpl. destruct (_isOpen (this w)); [|reflexivity]. simpl.
  split; simpl; [by rewrite !length_alter|].
  intros n _ Ho Hm. by rewrite !class_of_set_ne.
Qed.

Lemma step_others_kept e w :
  others_kept (_overlay (this w)) (_modal (this w)) w (step e w).2.
Proof.
  destruct e;
    try (apply classes_kept_others; by apply step_classes_kept).
  - apply open_others_kept.
  - apply close_others_kept.
  - unfold step, bind, gets, on_keydown. simpl.
    destruct (keydown_listener w); [|reflexivity].
    destruct (Nat.eqb _ _); [apply close_others_kept | reflexivity].
  - unfold step, bind, gets. simpl.
    destruct (click_listener w); [apply close_others_kept | reflexivity].
Qed.

Lemma run_others_kept es w :
  others_kept (_overlay (this w)) (_modal (this w)) w (run es w).
Proof.
  revert w. induction es as [|e es IH]; intros w; [reflexivity|].
  rewrite run_cons. transitivity (step e w).2; [apply step_others_kept|].
  destruct (step_same_static e w) as (_ & _ & _ & Ho & Hm & _).
  rewrite <- Ho, <- Hm. apply IH.
Qed.


(** X6.  Across any run of the page, the modal assigns class names to its
    overlay and its dialog only: every other node that exists keeps its
    class name (the content slot, the close button, the body and the rest of
    the document, and whatever was passed to [setContent]). *)
Theorem only_overlay_and_dialog_restyled (es : list event) (w : world) (n : nat) :
  n < length (nodes w) →
  n ≠ _overlay (this w) → n ≠ _modal (this w) →
  n < length (nodes (run es w)) ∧
  class_of (nodes (run es w)) n = class_of (nodes w) n.
Proof.
  intros Hn Ho Hm. destruct (run_others_kept es w) as [Hl Hc].
  split; [lia | by apply Hc].
Qed.

Lemma only_overlay_and_dialog_restyled_witness :
  class_of
    (nodes (run [CallOpen; Dispatch "transitionend"; CallSetContent (CString "hi");
                 KeyDown 27; Elapse 50; Dispatch "transitionend"] sample_modal)) 3
  = "pl-modal-content".
Proof.
  pose proof (only_overlay_and_dialog_restyled
                [CallOpen; Dispatch "transitionend"; CallSetContent (CString "hi");
                 KeyDown 27; Elapse 50; Dispatch "transitionend"] sample_modal 3) as H.
  destruct H as [_ H]; [by_evaluation | by_evaluation | by_evaluation |].
  exact H.
Defined.

(** X7.  The escape key and the close button.  For a modal constructed with
    a truthy [avoidClose], at any later time a press of the escape key (key
    code 27) and a click on the close button do exactly what a call of
    [close] does, and any other key does nothing.  In particular both do
    nothing while [isOpen] is false, which includes the time between a call
    of [open] and its completion signal. *)
Theorem escape_and_click_call_close
    (style : string → jsval) (a : settings_arg) (pg : page) (es : list event) :
  ToBoolean (get_prop (extendsDefaults defaults (settings_or_empty a)) "avoidClose")
    = true →
  let w := run es (new_Modal style a pg) in
  step (KeyDown 27) w = close w ∧
  step ClickCloseButton w = close w ∧
  (∀ k, k ≠ 27 → step (KeyDown k) w = (Ok tt, w)) ∧
  (isOpen w = false →
   step (KeyDown 27) w = (Ok tt, w) ∧ step ClickCloseButton w = (Ok tt, w)).
Proof.
  intros Havoid. cbv zeta.
  destruct (run_same_static es (new_Modal style a pg)) as (_ & Hk & Hc & _).
  rewrite new_Modal_eq in Hk at 2. rewrite new_Modal_eq in Hc at 2.
  cbv zeta in Hk, Hc. cbn [keydown_listener click_listener] in Hk, Hc.
  rewrite Havoid in Hk, Hc.
  set (w := run es (new_Modal style a pg)) in *.
  assert (step (KeyDown 27) w = close w) as H1.
  { unfold step, bind, gets. simpl. by rewrite Hk. }
  assert (step ClickCloseButton w = close w) as H2.
  { unfold step, bind, gets. simpl. by rewrite Hc. }
  split; [exact H1|]. split; [exact H2|]. split.
  - intros k Hne. unfold step, bind, gets, on_keydown, ESC_KEY. simpl. rewrite Hk.
    by rewrite (proj2 (Nat.eqb_neq k 27)).
  - intros Hclosed. rewrite H1, H2. split; by apply close_when_closed.
Qed.

Lemma escape_and_click_call_close_witness :
  step (KeyDown 27) (run [CallOpen] sample_modal) = (Ok tt, run [CallOpen] sample_modal).
Proof.
  pose proof (escape_and_click_call_close standard_style ArgUndefined blank_page
                [CallOpen]) as H.
  destruct H as (_ & _ & _ & H); [by_evaluation|].
  destruct H as [H _]; [by_evaluation|].
  exact H.
Defined.

End frame.
(** ** Appending the class and deleting it again *)

Section trimming.

Implicit Types s base r : string.

Lemma spaces_then_literal_occurs s r :
  spaces_then_literal s = Some r → occurs modal_open s = true.
Proof.
  revert r. induction s as [|a s IH]; intros r H; [discriminate H|].
  cbn [spaces_then_literal] in H.
  destruct (is_regex_space a); [|discriminate H].
  apply occurs_tail.
  destruct (spaces_then_literal s) as [r'|] eqn:E.
  - by eapply IH.
  - by eapply occurs_here.
Qed.

Lemma match_at_start_occurs s r :
  match_at_start s = Some r → occurs modal_open s = true.
Proof.
  unfold match_at_start. destruct (spaces_then_literal s) as [r'|] eqn:E.
  - intros _. by eapply spaces_then_literal_occurs.
  - intros H. by eapply occurs_here.
Qed.

(** Without the literal in it, a class name is left as it is. *)
Lemma replace_modal_open_absent s :
  occurs modal_open s = false → replace_modal_open s = s.
Proof.
  induction s as [|a s IH]; intros Hocc; rewrite replace_modal_open_eq.
  - destruct (match_at_start "") eqn:E; [|reflexivity].
    apply match_at_start_occurs in E. congruence.
  - destruct (match_at_start (String a s)) eqn:E.
    + apply match_at_start_occurs in E. congruence.
    + f_equal. apply IH. by eapply occurs_false_tail.
Qed.

Lemma trim_end_empty a s :
  trim_end (String a s) = "" → is_regex_space a = true ∧ trim_end s = "".
Proof.
  cbn [trim_end]. destruct (trim_end s); [|discriminate].
  destruct (is_regex_space a); [done | discriminate].
Qed.

Lemma spaces_then_literal_blank s :
  trim_end s = "" → spaces_then_literal (s +:+ " modal-open") = Some "".
Proof.
  induction s as [|a s IH]; intros H; [reflexivity|].
  apply trim_end_empty in H as [Ha Hs].
  change (String a s +:+ " modal-open") with (String a (s +:+ " modal-open")).
  cbn [spaces_then_literal]. by rewrite Ha, IH.
Qed.

(** Deleting the pattern from [base ++ " modal-open"] deletes the appended
    class together with all white space before it. *)
Lemma replace_modal_open_appended base :
  occurs modal_open base = false →
  replace_modal_open (base +:+ " modal-open") = trim_end base.
Proof.
  induction base as [|a s IH]; intros Hocc; [reflexivity|].
  pose proof (occurs_false_tail _ _ _ Hocc) as Hs. specialize (IH Hs).
  change (String a s +:+ " modal-open") with (String a (s +:+ " modal-open")).
  rewrite replace_modal_open_eq.
  destruct (match_at_start (String a (s +:+ " modal-open"))) as [r|] eqn:E.
  - assert (r = "") as -> by (by eapply (match_at_start_at_end (String a s))).
    unfold match_at_start in E.
    destruct (spaces_then_literal (String a (s +:+ " modal-open"))) as [r|] eqn:E1.
    + injection E as ->. cbn [spaces_then_literal] in E1.
      destruct (is_regex_space a) eqn:Ha; [|discriminate E1].
      destruct (spaces_then_literal (s +:+ " modal-open")) as [r'|] eqn:E2.
      * injection E1 as ->.
        rewrite replace_modal_open_eq in IH. unfold match_at_start in IH.
        rewrite E2 in IH. cbn [trim_end]. by rewrite <- IH, Ha.
      * apply (modal_open_before_space s "modal-open") in E1 as [r' E1].
        apply occurs_here in E1. congruence.
    + apply (modal_open_before_space (String a s) "modal-open") in E as [r' E].
      apply occurs_here in E. congruence.
  - rewrite IH. cbn [trim_end].
    destruct (trim_end s) eqn:Et; [|reflexivity].
    destruct (is_regex_space a) eqn:Ha; [|reflexivity].
    exfalso. unfold match_at_start in E. cbn [spaces_then_literal] in E.
    rewrite Ha, spaces_then_literal_blank in E by done. discriminate E.
Qed.

Lemma trim_end_prefix s : ∃ ws, s = trim_end s +:+ ws ∧ trim_end ws = "".
Proof.
  induction s as [|a s (ws & Hs & Hws)]; [by exists ""|].
  cbn [trim_end]. destruct (trim_end s) as [|b t] eqn:Et.
  - destruct (is_regex_space a) eqn:Ha.
    + exists (String a s). split; [reflexivity|].
      cbn [trim_end]. by rewrite Et, Ha.
    + exists s. split; [reflexivity | exact Et].
  - exists ws. split; [|exact Hws].
    change (String a s = String a (String b t +:+ ws)). by rewrite <- Hs.
Qed.

Lemma occurs_false_prefix p s q : occurs p (s +:+ q) = false → occurs p s = false.
Proof.
  intros H. destruct (occurs p s) eqn:E; [|reflexivity].
  apply (occurs_app _ _ q) in E. congruence.
Qed.

Lemma trim_end_free s :
  occurs modal_open s = false → occurs modal_open (trim_end s) = false.
Proof.
  intros H. destruct (trim_end_prefix s) as (ws & Hs & _).
  rewrite Hs in H. by eapply occurs_false_prefix.
Qed.

Lemma trim_end_cons a s b t :
  trim_end s = String b t → trim_end (String a s) = String a (String b t).
Proof. intros H. cbn [trim_end]. by rewrite H. Qed.

Lemma trim_end_idemp s : trim_end (trim_end s) = trim_end s.
Proof.
  induction s as [|a s IH]; [reflexivity|].
  cbn [trim_end]. destruct (trim_end s) as [|b t] eqn:Et.
  - destruct (is_regex_space a) eqn:Ha; [reflexivity|].
    cbn [trim_end]. by rewrite Ha.
  - by apply trim_end_cons.
Qed.

(** X8.  What [close] undoes of what [open] did to a class name.  For a
    class name that does not contain ["modal-open"], deleting the pattern
    changes nothing; and after [open] has appended [" modal-open"], deleting
    the pattern gives back the class name without the white space at its
    end, so a class name that ends in white space (as the dialog's does
    under the default settings) is not restored exactly.  What is cut off
    is white space only. *)
Theorem replace_modal_open_round_trip (base : string) :
  occurs modal_open base = false →
  replace_modal_open base = base ∧
  replace_modal_open (base +:+ " modal-open") = trim_end base ∧
  ∃ ws, base = trim_end base +:+ ws ∧ trim_end ws = "".
Proof.
  intros Hocc. split; [by apply replace_modal_open_absent|].
  split; [by apply replace_modal_open_appended | apply trim_end_prefix].
Qed.

Lemma replace_modal_open_round_trip_witness :
  replace_modal_open ("pl-modal " +:+ " modal-open") = "pl-modal".
Proof.
  destruct (replace_modal_open_round_trip "pl-modal ") as (_ & H & _);
    [reflexivity | exact H].
Defined.

End trimming.

(** ** Which settings count *)

Section settings.



End settings.
(** ** Whole handshakes *)

Section cycle.

Implicit Types (w : world) (h : handshake) (e : event).

Lemma mjoin_replicate_S {A} n (x : list A) :
  mjoin (replicate (S n) x) = x ++ mjoin (replicate n x).
Proof. reflexivity. Qed.

Lemma mjoin_replicate_1 {A} (x : list A) : mjoin (replicate 1 x) = x.
Proof. apply app_nil_r. Qed.

Lemma hrun_cons e es h : hrun (e :: es) h = hrun es (hstep e h).2.
Proof. reflexivity. Qed.

Lemma hrun_app es1 es2 h : hrun (es1 ++ es2) h = hrun es2 (hrun es1 h).
Proof. apply foldl_app. Qed.

Lemma houtcomes_app es1 es2 h :
  houtcomes (es1 ++ es2) h = houtcomes es1 h ++ houtcomes es2 (hrun es1 h).
Proof.
  revert h. induction es1 as [|e es1 IH]; intros h; [reflexivity|].
  simpl. by rewrite IH.
Qed.

Lemma hstep_signal_closed oc dc op dp b ts nw chs fd mo mc te :
  hstep (Dispatch (ToString te))
        (Handshake false oc dc op dp b {[ ToString te ]} ts nw chs fd mo mc te) =
  (Ok tt,
   Handshake true oc dc op dp b ∅ (ts ++ [nw + 50]) nw chs
             (fd ++ h_notification mo
                      (Handshake false oc dc op dp b ∅ ts nw chs fd mo mc te))
             mo mc te).
Proof.
  unfold hstep. cbn [h_listeners].
  rewrite bool_decide_eq_true_2 by (by apply elem_of_singleton).
  unfold h_toggle. cbn [h_isOpen h_listeners h_transitionend].
  rewrite difference_diag_L. reflexivity.
Qed.

Lemma hstep_signal_open oc dc po pd b ts nw chs fd mo mc te :
  hstep (Dispatch (ToString te))
        (Handshake true oc dc (Some po) (Some pd) b {[ ToString te ]} ts nw chs fd
                   mo mc te) =
  (Ok tt,
   Handshake false oc dc None None b ∅ (ts ++ [nw + 50]) nw chs
             (fd ++ h_notification mc
                      (Handshake false oc dc None None b ∅ ts nw chs fd mo mc te))
             mo mc te).
Proof.
  unfold hstep. cbn [h_listeners].
  rewrite bool_decide_eq_true_2 by (by apply elem_of_singleton).
  unfold h_toggle. cbn [h_isOpen h_listeners h_transitionend].
  rewrite difference_diag_L. reflexivity.
Qed.

Lemma hstep_wait_rearm ms io oc dc op dp b t nw chs fd mo mc te :
  t ≤ nw + ms →
  hstep (Elapse ms) (Handshake io oc dc op dp b ∅ [t] nw chs fd mo mc te) =
  (Ok tt, Handshake io oc dc op dp b {[ ToString te ]} [] (nw + ms) chs fd mo mc te).
Proof.
  intros Hdue. unfold hstep. cbn [h_now h_timers h_listeners h_transitionend].
  rewrite filter_cons_True by done. rewrite filter_cons_False by lia.
  rewrite ?filter_nil. cbn [rearm foldr]. rewrite (right_id_L ∅ (∪)). reflexivity.
Qed.

(** One whole handshake from rest, on the machine. *)
Lemma hcycle h shown hidden :
  at_rest h → 50 ≤ shown → 50 ≤ hidden →
  let es := open_close_cycle (ToString (h_transitionend h)) shown hidden in
  houtcomes es h = replicate 6 (Ok tt) ∧
  hrun es h =
    Handshake false (trim_end (h_overlay_class h)) (trim_end (h_dialog_class h))
              None None (h_body h) {[ ToString (h_transitionend h) ]} []
              (h_now h + shown + hidden) (h_channels h)
              (h_fired h ++ h_cycle_firings h)
              (h_modalOpen h) (h_modalClose h) (h_transitionend h).
Proof.
  destruct h as [io oc dc op dp b ls ts nw chs fd mo mc te].
  unfold at_rest, h_cycle_firings.
  cbn [h_isOpen h_overlay_class h_dialog_class h_body h_listeners h_timers h_now
       h_channels h_fired h_modalOpen h_modalClose h_transitionend].
  intros (-> & -> & -> & Ho & Hd) Hshown Hhidden. cbv zeta.
  unfold open_close_cycle.
  assert (hstep CallOpen
            (Handshake false oc dc op dp b {[ ToString te ]} [] nw chs fd mo mc te) =
          (Ok tt,
           Handshake false (oc +:+ " modal-open") (dc +:+ " modal-open")
                     (Some b) (Some b) b {[ ToString te ]} [] nw chs fd mo mc te))
    as H1 by reflexivity.
  cbn [houtcomes]. rewrite !hrun_cons.
  rewrite H1. cbn [fst snd].
  rewrite hstep_signal_closed. cbn [fst snd app].
  rewrite (hstep_wait_rearm shown) by lia. cbn [fst snd].
  assert (∀ oc' dc' po pd ls ts nw' fd',
            hstep CallClose
              (Handshake true oc' dc' po pd b ls ts nw' chs fd' mo mc te) =
            (Ok tt,
             Handshake true (replace_modal_open oc') (replace_modal_open dc')
                       po pd b ls ts nw' chs fd' mo mc te))
    as H4 by reflexivity.
  rewrite H4. cbn [fst snd].
  rewrite !replace_modal_open_appended by done.
  rewrite hstep_signal_open. cbn [fst snd app].
  rewrite (hstep_wait_rearm hidden) by lia. cbn [fst snd].
  split; [reflexivity|].
  unfold hrun. cbn [foldl]. rewrite <- (assoc_L (++)). reflexivity.
Qed.

Lemma at_rest_after_cycle h oc dc b nw chs fd :
  at_rest h →
  at_rest (Handshake false (trim_end (h_overlay_class h)) (trim_end (h_dialog_class h))
             oc dc b {[ ToString (h_transitionend h) ]} [] nw chs fd
             (h_modalOpen h) (h_modalClose h) (h_transitionend h)).
Proof.
  intros (_ & _ & _ & Ho & Hd). unfold at_rest.
  cbn [h_isOpen h_overlay_class h_dialog_class h_listeners h_timers h_transitionend].
  repeat split; by apply trim_end_free.
Qed.

(** Any number of whole handshakes from rest, on the machine. *)
Lemma hcycles n h shown hidden :
  at_rest h → 50 ≤ shown → 50 ≤ hidden →
  let es := mjoin (replicate (S n)
                     (open_close_cycle (ToString (h_transitionend h)) shown hidden)) in
  Forall (λ r, r = Ok tt) (houtcomes es h) ∧
  hrun es h =
    Handshake false (trim_end (h_overlay_class h)) (trim_end (h_dialog_class h))
              None None (h_body h) {[ ToString (h_transitionend h) ]} []
              (h_now h + S n * (shown + hidden)) (h_channels h)
              (h_fired h ++ mjoin (replicate (S n) (h_cycle_firings h)))
              (h_modalOpen h) (h_modalClose h) (h_transitionend h).
Proof.
  intros Hrest Hshown Hhidden. cbv zeta.
  destruct (hcycle h shown hidden Hrest Hshown Hhidden) as [Hout Hrun].
  cbv zeta in Hout, Hrun.
  revert h Hrest Hout Hrun. induction n as [|n IH]; intros h Hrest Hout Hrun.
  - rewrite !mjoin_replicate_1, Hout, Hrun. split.
    + by repeat constructor.
    + f_equal. lia.
  - rewrite (mjoin_replicate_S (S n)).
    rewrite houtcomes_app, hrun_app, Hrun, Hout.
    match goal with |- context [hrun _ ?x] => set (h1 := x) end.
    assert (at_rest h1) as Hrest1 by (by apply at_rest_after_cycle).
    destruct (hcycle h1 shown hidden Hrest1 Hshown Hhidden) as [Hout1 Hrun1].
    cbv zeta in Hout1, Hrun1.
    destruct (IH h1 Hrest1 Hout1 Hrun1) as [IH1 IH2].
    change (h_transitionend h1) with (h_transitionend h) in IH1, IH2.
    split.
    + apply Forall_app. split; [by repeat constructor | exact IH1].
    + rewrite IH2. unfold h1.
      cbn [h_overlay_class h_dialog_class h_body h_now h_channels h_fired
           h_modalOpen h_modalClose h_transitionend].
      rewrite !trim_end_idemp. rewrite (mjoin_replicate_S (S n)).
      rewrite <- (assoc_L (++)). f_equal. lia.
Qed.

Lemma cycle_events n ty shown hidden :
  forallb handshake_event (mjoin (replicate n (open_close_cycle ty shown hidden))) = true.
Proof. induction n as [|n IH]; [reflexivity | exact IH]. Qed.

(** X10.  The modal can be shown and hidden any number of times.  Take a
    closed modal whose completion listener is attached with no timer
    pending, and whose overlay and dialog class names do not contain
    ["modal-open"].  Run any positive number of whole handshakes: [open],
    the completion signal, a wait, [close], the completion signal, a wait,
    each wait lasting at least 50 ms.  Then no call and no handler throws;
    the modal ends closed, with overlay and dialog detached and the listener
    attached again with no timer pending; each handshake has fired the open
    channel and then the close channel once (as far as they exist); and the
    two class names are what they were at the start, up to white space lost
    at their end. *)
Theorem open_close_cycles (n : nat) (w : world) (shown hidden : nat) :
  frame_ok w → at_rest (handshake_of w) → 50 ≤ shown → 50 ≤ hidden →
  let es := mjoin (replicate (S n)
              (open_close_cycle (ToString (_transitionend (this w))) shown hidden)) in
  let w' := run es w in
  Forall (λ r, r = Ok tt) (outcomes es w) ∧
  isOpen w' = false ∧
  overlay_parent w' = None ∧ dialog_parent w' = None ∧
  overlay_class w' = trim_end (overlay_class w) ∧
  dialog_class w' = trim_end (dialog_class w) ∧
  modal_listeners w' = {[ ToString (_transitionend (this w)) ]} ∧
  timers w' = [] ∧
  fired w' = fired w ++
    mjoin (replicate (S n) (notification (_modalOpen (this w)) w ++
                            notification (_modalClose (this w)) w)).
Proof.
  intros Hok Hrest Hshown Hhidden. cbv zeta.
  destruct (handshake_run _ w Hok
              (cycle_events (S n) (ToString (_transitionend (this w))) shown hidden))
    as (Hout & Hh & _).
  destruct (hcycles n (handshake_of w) shown hidden Hrest Hshown Hhidden) as [H1 H2].
  cbv zeta in H1, H2. change (h_transitionend (handshake_of w)) with
    (_transitionend (this w)) in H1, H2.
  rewrite <- Hout in H1. rewrite <- Hh in H2. clear Hout Hh.
  split; [exact H1|].
  set (w' := run _ w) in *. clearbody w'.
  unfold handshake_of in H2 at 1. injection H2 as -> -> -> -> -> _ -> -> _ _ -> _ _ _.
  by repeat split.
Qed.

Lemma open_close_cycles_witness :
  let w' := run (mjoin (replicate 3 (open_close_cycle "transitionend" 50 80)))
                (run [ReadModalOpen; ReadModalClose] sample_modal) in
  dialog_class w' = "pl-modal" ∧
  fired w' = [(0, []); (1, []); (0, []); (1, []); (0, []); (1, [])].
Proof.
  pose proof (open_close_cycles 2 (run [ReadModalOpen; ReadModalClose] sample_modal)
                50 80) as H.
  destruct H as (_ & _ & _ & _ & _ & Hd & _ & _ & Hf).
  - by_evaluation.
  - unfold at_rest. by_evaluation.
  - lia.
  - lia.
  - split; [exact Hd | exact Hf].
Defined.

End cycle.
(** ** The content slot *)

Section content.

Implicit Types w : world.

Lemma inclusive_ancestor_self fuel ns n : inclusive_ancestor fuel ns n n = true.
Proof. destruct fuel; simpl; by rewrite Nat.eqb_refl. Qed.

(** Cutting parent pointers cannot create ancestors. *)
Lemma inclusive_ancestor_cut fuel ns ns' a n :
  (∀ k p, parent_of ns' k = Some p → parent_of ns k = Some p) →
  inclusive_ancestor fuel ns' a n = true → inclusive_ancestor fuel ns a n = true.
Proof.
  intros Hcut. revert n. induction fuel as [|fuel IH]; intros n; simpl; [done|].
  destruct (Nat.eqb n a); [done|]. simpl.
  destruct (parent_of ns' n) as [p|] eqn:Hp; [|discriminate].
  rewrite (Hcut _ _ Hp). apply IH.
Qed.

Lemma parent_of_unparent_some (l : list nat) ns k p :
  parent_of (foldr (λ c, alter (with_parentNode None) c) ns l) k = Some p →
  parent_of ns k = Some p.
Proof.
  induction l as [|c l IH]; simpl; [done|].
  destruct (decide (c = k)) as [->|Hne].
  - by rewrite parent_of_unset.
  - by rewrite parent_of_set_ne.
Qed.

Lemma children_of_detach_empty c ns p :
  children_of ns p = [] → children_of (detach c ns) p = [].
Proof.
  intros Hp. unfold detach. destruct (parent_of ns c) as [q|]; [|exact Hp].
  rewrite children_of_alter by done.
  unfold children_of in *. destruct (decide (q = p)) as [->|Hne].
  - rewrite list_lookup_alter_eq. destruct (ns !! p) as [x|]; [|reflexivity].
    simpl in *. by rewrite Hp.
  - by rewrite list_lookup_alter_ne.
Qed.

(** [setContent] starts by emptying the slot; the rest runs on that page. *)
Lemma setContent_cleared (c : content_arg) w :
  slot_ok w →
  ∃ w1, setContent c w =
          match c with
          | CNothing => bind (createTextNode "") (appendChild (_content (this w1)))
          | CString s => bind (createTextNode s) (appendChild (_content (this w1)))
          | CNode n =>
              bind (gets (λ w, bool_decide (n < length (nodes w))))
                   (λ known : bool,
                      if known then appendChild (_content (this w1)) n
                      else throw TypeError)
          | COther => throw TypeError
          end w1 ∧
        slot_ok w1 ∧
        children_of (nodes w1) (_content (this w1)) = [] ∧
        this w1 = this w ∧
        length (nodes w1) = length (nodes w) ∧
        (∀ k, class_of (nodes w1) k = class_of (nodes w) k) ∧
        (∀ k p, parent_of (nodes w1) k = Some p → parent_of (nodes w) k = Some p).
Proof.
  intros Hok. destruct (clear_innerHTML_slot w Hok) as (Hok1 & Hempty & Hthis).
  exists (clear_innerHTML (_content (this w)) w).2.
  rewrite Hthis. split; [apply setContent_eq|].
  split; [exact Hok1|]. split; [exact Hempty|]. split; [exact Hthis|].
  unfold clear_innerHTML, modify. simpl. split; [|split].
  - by rewrite length_alter, length_unparent.
  - intros k. rewrite class_of_alter by done. apply class_of_unparent.
  - intros k p. rewrite parent_of_alter by done. apply parent_of_unparent_some.
Qed.

(** X11.  When [setContent] fails, the old content is already gone.  An
    argument that is neither a string nor a node makes [appendChild] throw a
    [TypeError], and the slot itself is refused with a
    [HierarchyRequestError]; a string, or no argument, never fails.  Whatever the reason of a failure, the slot is left empty
    and the fields of the instance are untouched. *)
Theorem setContent_failure_empties_slot (w : world) (c : content_arg) :
  slot_ok w →
  (setContent COther w).1 = Throw TypeError ∧
  (setContent (CNode (_content (this w))) w).1 = Throw HierarchyRequestError ∧
  (setContent CNothing w).1 = Ok tt ∧
  (∀ s, (setContent (CString s) w).1 = Ok tt) ∧
  ((setContent c w).1 ≠ Ok tt →
   children_of (nodes (setContent c w).2) (_content (this w)) = [] ∧
   this (setContent c w).2 = this w).
Proof.
  intros Hok. split; [|split; [|split; [|split]]].
  - destruct (setContent_cleared COther w Hok) as (w1 & -> & _). reflexivity.
  - destruct (setContent_cleared (CNode (_content (this w))) w Hok)
      as (w1 & -> & [Hslot _] & _ & Hthis & _).
    unfold bind, gets, appendChild. simpl. rewrite <- Hthis.
    rewrite bool_decide_eq_true_2 by done.
    by rewrite inclusive_ancestor_self.
  - destruct (setContent_cleared CNothing w Hok) as (w1 & -> & Hok1 & Hempty & _).
    apply (append_new_text "" w1 Hok1 Hempty).
  - intros s.
    destruct (setContent_cleared (CString s) w Hok) as (w1 & -> & Hok1 & Hempty & _).
    apply (append_new_text s w1 Hok1 Hempty).
  - destruct (setContent_cleared c w Hok) as (w1 & -> & Hok1 & Hempty & Hthis & _).
    rewrite <- Hthis. destruct c as [|s|n|].
    + intros H. by destruct H; apply (append_new_text "" w1 Hok1 Hempty).
    + intros H. by destruct H; apply (append_new_text s w1 Hok1 Hempty).
    + unfold bind, gets, appendChild, throw. simpl.
      destruct (bool_decide (n < length (nodes w1))); [|done].
      destruct (inclusive_ancestor _ _ _ _); done.
    + done.
Qed.

Lemma setContent_failure_empties_slot_witness :
  children_of
    (nodes (setContent COther (setContent (CString "hello") sample_modal).2).2) 3
  = [].
Proof.
  pose proof (setContent_failure_empties_slot
                (setContent (CString "hello") sample_modal).2 COther) as H.
  destruct H as (_ & _ & _ & _ & H); [by_evaluation|].
  destruct H as [H _]; [by_evaluation | exact H].
Defined.

(** X12.  [setContent] with a node moves that node into the slot.  For a
    node of the page that is not the slot and does not contain it, the call
    succeeds; afterwards the node is the only child of the slot and the slot
    is its parent, whatever parent it had before, and it keeps its class
    name. *)
Theorem setContent_moves_node (w : world) (n : nat) :
  slot_ok w →
  n < length (nodes w) →
  inclusive_ancestor (length (nodes w)) (nodes w) n (_content (this w)) = false →
  let r := setContent (CNode n) w in
  r.1 = Ok tt ∧
  children_of (nodes r.2) (_content (this w)) = [n] ∧
  parent_of (nodes r.2) n = Some (_content (this w)) ∧
  class_of (nodes r.2) n = class_of (nodes w) n ∧
  length (nodes r.2) = length (nodes w).
Proof.
  intros Hok Hn Hanc. cbv zeta.
  destruct (setContent_cleared (CNode n) w Hok)
    as (w1 & -> & [Hslot _] & Hempty & Hthis & Hlen & Hcls & Hcut).
  rewrite Hthis in *. set (slot := _content (this w)) in *.
  assert (n ≠ slot) as Hne.
  { intros ->. by rewrite inclusive_ancestor_self in Hanc. }
  unfold bind, gets, appendChild. simpl.
  rewrite bool_decide_eq_true_2 by lia.
  destruct (inclusive_ancestor (length (nodes w1)) (nodes w1) n slot) eqn:Hanc1.
  { rewrite Hlen in Hanc1. apply (inclusive_ancestor_cut _ (nodes w)) in Hanc1;
      [congruence | exact Hcut]. }
  simpl. split; [reflexivity|]. split; [|split; [|split]].
  - rewrite children_of_attach_last by done.
    by rewrite children_of_detach_empty.
  - rewrite parent_of_attach_last by lia. by rewrite decide_True.
  - by rewrite class_of_attach_last.
  - by rewrite length_attach_last.
Qed.

Lemma setContent_moves_node_witness :
  children_of (nodes (setContent (CNode 1) (run [CallOpen] sample_modal)).2) 3 = [1] ∧
  parent_of (nodes (setContent (CNode 1) (run [CallOpen] sample_modal)).2) 1 = Some 3.
Proof.
  pose proof (setContent_moves_node (run [CallOpen] sample_modal) 1) as H.
  destruct H as (_ & H1 & H2 & _); [by_evaluation | by_evaluation | by_evaluation |].
  split; [exact H1 | exact H2].
Defined.



End content.
(** ** The two channels *)

Section channels.

Implicit Types (w : world) (e : event).

#[global] Instance channel_fields_kept_preorder : PreOrder channel_fields_kept.
Proof.
  split.
  - intros w. by repeat split.
  - intros w1 w2 w3 (?&?&?) (?&?&?). repeat split; congruence.
Qed.

(** Only the accessors assign the channel fields or create channels. *)
Lemma step_channel_fields_kept e :
  match e with ReadModalOpen | ReadModalClose => False | _ => True end →
  respects channel_fields_kept (step e).
Proof.
  destruct e; intros []; unfold_methods;
    respects_steps ltac:(unfold channel_fields_kept; simpl;
                         rewrite ?length_alter; tauto).
Qed.

Lemma channels_distinct_kept w w' :
  channel_fields_kept w w' → channels_distinct w → channels_distinct w'.
Proof.
  intros (Ho & Hc & Hl) Hd. unfold channels_distinct. rewrite Ho, Hc, Hl. exact Hd.
Qed.

Lemma modalOpen_distinct w :
  channels_distinct w →
  ∃ o, (modalOpen w).1 = Ok o ∧
       _modalOpen (this (modalOpen w).2) = Some o ∧
       _modalClose (this (modalOpen w).2) = _modalClose (this w) ∧
       channels_distinct (modalOpen w).2.
Proof.
  intros (Ho & Hc & Hne).
  unfold modalOpen, bind, gets, new_PLEvent, modify, ret. simpl.
  destruct (_modalOpen (this w)) as [o|] eqn:E; simpl.
  - exists o. unfold channels_distinct. rewrite E. by repeat split.
  - exists (length (channels w)). split; [reflexivity|]. split; [reflexivity|].
    split; [reflexivity|]. unfold channels_distinct. simpl.
    rewrite length_app. simpl. split; [|split].
    + intros ? [= <-]. lia.
    + intros b Hb. apply Hc in Hb. lia.
    + intros ? b [= <-] Hb. apply Hc in Hb. lia.
Qed.

Lemma modalClose_distinct w :
  channels_distinct w →
  ∃ c, (modalClose w).1 = Ok c ∧
       _modalClose (this (modalClose w).2) = Some c ∧
       _modalOpen (this (modalClose w).2) = _modalOpen (this w) ∧
       channels_distinct (modalClose w).2.
Proof.
  intros (Ho & Hc & Hne).
  unfold modalClose, bind, gets, new_PLEvent, modify, ret. simpl.
  destruct (_modalClose (this w)) as [c|] eqn:E; simpl.
  - exists c. unfold channels_distinct. rewrite E. by repeat split.
  - exists (length (channels w)). split; [reflexivity|]. split; [reflexivity|].
    split; [reflexivity|]. unfold channels_distinct. simpl.
    rewrite length_app. simpl. split; [|split].
    + intros a Ha. apply Ho in Ha. lia.
    + intros ? [= <-]. lia.
    + intros a ? Ha [= <-]. apply Ho in Ha. lia.
Qed.

Lemma read_modalOpen_eq w : (step ReadModalOpen w).2 = (modalOpen w).2.
Proof. unfold step, bind, ret. by destruct (modalOpen w) as [[]]. Qed.

Lemma read_modalClose_eq w : (step ReadModalClose w).2 = (modalClose w).2.
Proof. unfold step, bind, ret. by destruct (modalClose w) as [[]]. Qed.

Lemma step_channels_distinct e w :
  channels_distinct w → channels_distinct (step e w).2.
Proof.
  intros Hd.
  destruct e;
    try (eapply channels_distinct_kept; [by apply step_channel_fields_kept | exact Hd]).
  - rewrite read_modalOpen_eq.
    by destruct (modalOpen_distinct w Hd) as (? & _ & _ & _ & ?).
  - rewrite read_modalClose_eq.
    by destruct (modalClose_distinct w Hd) as (? & _ & _ & _ & ?).
Qed.

Lemma run_channels_distinct es w :
  channels_distinct w → channels_distinct (run es w).
Proof.
  revert w. induction es as [|e es IH]; intros w Hinv; [exact Hinv|].
  rewrite run_cons. by apply IH, step_channels_distinct.
Qed.

Lemma new_Modal_channels_distinct style a pg :
  channels_distinct (new_Modal style a pg).
Proof. rewrite new_Modal_eq. by repeat split. Qed.

(** X14.  The open channel and the close channel are two different
    objects.  On every page a constructed modal can reach, a channel field
    that is set holds a channel that exists, the two fields never hold the
    same channel, and reading the two accessors one after the other, in
    either order, returns two different channels. *)
Theorem accessors_return_distinct_channels
    (style : string → jsval) (a : settings_arg) (pg : page) (es : list event) :
  let w := run es (new_Modal style a pg) in
  channels_distinct w ∧
  (∃ o c, (modalOpen w).1 = Ok o ∧ (modalClose (modalOpen w).2).1 = Ok c ∧ o ≠ c) ∧
  (∃ o c, (modalClose w).1 = Ok c ∧ (modalOpen (modalClose w).2).1 = Ok o ∧ o ≠ c).
Proof.
  cbv zeta.
  pose proof (run_channels_distinct es _ (new_Modal_channels_distinct style a pg)) as Hd.
  split; [exact Hd|]. split.
  - destruct (modalOpen_distinct _ Hd) as (o & Ho & Hfo & _ & Hd1).
    destruct (modalClose_distinct _ Hd1) as (c & Hc & Hfc & Hsame & (_ & _ & Hne)).
    exists o, c. split; [exact Ho|]. split; [exact Hc|].
    apply Hne; [by rewrite Hsame | exact Hfc].
  - destruct (modalClose_distinct _ Hd) as (c & Hc & Hfc & _ & Hd1).
    destruct (modalOpen_distinct _ Hd1) as (o & Ho & Hfo & Hsame & (_ & _ & Hne)).
    exists o, c. split; [exact Hc|]. split; [exact Ho|].
    apply Hne; [exact Hfo | by rewrite Hsame].
Qed.

(** X15.  The handshake depends on nothing else on the page.  Two pages
    that agree on [isOpen], on the class names and parents of overlay and
    dialog, on the body, the listener, the timers, the clock, the channels
    and the record of firings behave alike on every run of calls of [open]
    and [close], accessor reads, listener registrations, events reaching the
    dialog and waiting: the same calls and handlers throw, and the pages
    agree again afterwards, whatever their content slots, settings and other
    nodes are. *)
Theorem handshake_independent_of_rest (w1 w2 : world) (es : list event) :
  frame_ok w1 → frame_ok w2 →
  handshake_of w1 = handshake_of w2 →
  forallb handshake_event es = true →
  outcomes es w1 = outcomes es w2 ∧
  handshake_of (run es w1) = handshake_of (run es w2).
Proof.
  intros Hok1 Hok2 Heq Hes.
  destruct (handshake_run es w1 Hok1 Hes) as (Ho1 & Hh1 & _).
  destruct (handshake_run es w2 Hok2 Hes) as (Ho2 & Hh2 & _).
  rewrite Ho1, Ho2, Hh1, Hh2, Heq. by split.
Qed.

Lemma handshake_independent_of_rest_witness :
  handshake_of (run [CallOpen; Dispatch "transitionend"; Elapse 50; CallClose]
                    sample_modal)
  = handshake_of (run [CallOpen; Dispatch "transitionend"; Elapse 50; CallClose]
                      (setContent (CString "hello") sample_modal).2).
Proof.
  apply (handshake_independent_of_rest sample_modal
           (setContent (CString "hello") sample_modal).2
           [CallOpen; Dispatch "transitionend"; Elapse 50; CallClose]);
    by_evaluation.
Defined.






End channels.
(** ** Calls that come at the wrong time, and the constructor *)

Section calls.

Implicit Types w : world.

(** X17.  Calls made while a transition is under way are dropped.  [open]
    and [close] do not touch [isOpen], so a [close] that follows an [open]
    before the completion signal finds the modal still closed and does
    nothing, and an [open] that follows a [close] before the completion
    signal finds the modal still open and does nothing. *)
Theorem calls_during_transition_are_dropped (w : world) :
  (isOpen w = false → close (open w).2 = (Ok tt, (open w).2)) ∧
  (isOpen w = true → open (close w).2 = (Ok tt, (close w).2)).
Proof.
  split; intros Hflag.
  - apply close_when_closed. rewrite <- Hflag.
    apply (call_flag_kept CallOpen (λ ty, ltac:(discriminate)) w).
  - apply open_when_open. rewrite <- Hflag.
    apply (call_flag_kept CallClose (λ ty, ltac:(discriminate)) w).
Qed.

Lemma calls_during_transition_are_dropped_witness :
  run [CallOpen; CallClose] sample_modal = run [CallOpen] sample_modal ∧
  run [CallClose; CallOpen] (run [CallOpen; Dispatch "transitionend"] sample_modal)
  = run [CallClose] (run [CallOpen; Dispatch "transitionend"] sample_modal).
Proof.
  split.
  - destruct (calls_during_transition_are_dropped sample_modal) as [H _].
    rewrite !run_cons, run_nil. change (step CallOpen sample_modal) with (open sample_modal).
    change (step CallClose ?x) with (close x). rewrite H; [reflexivity | by_evaluation].
  - set (w := run [CallOpen; Dispatch "transitionend"] sample_modal).
    destruct (calls_during_transition_are_dropped w) as [_ H].
    rewrite !run_cons, run_nil. change (step CallClose w) with (close w).
    change (step CallOpen ?x) with (open x). rewrite H; [reflexivity | by_evaluation].
Defined.


End calls.
